(** * JarvisMD: the live workflow-progress tracker

    A shallow embedding of [src/components/WorkflowProgress.jsx]: the state
    updaters run by the WebSocket [onmessage] handler, the handlers
    [onopen], [onclose] and [onerror], and the effect that opens and closes
    the connection.  JavaScript values, property reads, truthiness, object
    spread and the exceptions the handlers can meet are written out, so that
    every definition below can be evaluated on a concrete frame. *)

From stdpp Require Import gmap strings list fin_maps pretty.

Open Scope string_scope.
Open Scope list_scope.

(** ** JavaScript values

    What [JSON.parse] can return, together with [undefined], which the
    component stores itself (a property read that finds nothing).  Numbers
    are the integers: the frames of this protocol carry percentages and
    clock readings, and no number is ever computed with. Strings are
    sequences of code units. *)

#[warnings="-register-all"]
Inductive value : Type :=
  | JUndef
  | JNull
  | JBool (b : bool)
  | JNum (n : Z)
  | JStr (s : string)
  | JArr (l : list value)
  | JObj (m : gmap string value).

(** A computation that may throw (a [TypeError] in every case met here). *)
Inductive result (A : Type) : Type :=
  | Ok (a : A)
  | Throw.
Arguments Ok {A} a.
Arguments Throw {A}.

#[global] Instance result_ret : MRet result := @Ok.
#[global] Instance result_bind : MBind result := λ A B f r,
  match r with Ok a => f a | Throw => Throw end.
#[global] Instance result_fmap : FMap result := λ A B f r,
  match r with Ok a => Ok (f a) | Throw => Throw end.

Module JS.

(** [if (v)], [v || w], [!v] *)
Definition truthy (v : value) : bool :=
  match v with
  | JUndef | JNull => false
  | JBool b => b
  | JNum n => negb (n =? 0)%Z
  | JStr s => negb (String.eqb s "")
  | JArr _ | JObj _ => true
  end.

Definition nullish (v : value) : bool :=
  match v with JUndef | JNull => true | _ => false end.

(** [a || b] *)
Definition or (a b : value) : value := if truthy a then a else b.

(** The code units of a string, each as a one-unit string. *)
Definition chars (s : string) : list value :=
  (λ c, JStr (String c "")) <$> String.list_ascii_of_string s.

(** An array's elements under their index keys "0", "1", ... *)
Definition index_props (l : list value) : gmap string value :=
  list_to_map (imap (λ i x, (pretty i, x)) l).

(** The own enumerable properties of a value: what [{...v}] copies. *)
Definition own_enumerable (v : value) : gmap string value :=
  match v with
  | JObj m => m
  | JArr l => index_props l
  | JStr s => index_props (chars s)
  | _ => ∅
  end.

(** [o.k] on an object held as its property map. *)
Definition field (o : gmap string value) (k : string) : value :=
  default JUndef (o !! k).

(** [v.k] for a [v] that is neither [undefined] nor [null], and a name [k]
    that no built-in prototype defines (the component reads [type],
    [data], [message], [content], [current_agent], [agent_activity],
    [agent], [action], [status], [details], [current_step], [id]). *)
Definition prop (v : value) (k : string) : value :=
  if String.eqb k "length" then
    match v with
    | JArr l => JNum (Z.of_nat (length l))
    | JStr s => JNum (Z.of_nat (String.length s))
    | _ => field (own_enumerable v) k
    end
  else field (own_enumerable v) k.

(** [v.k]: reading a property of [undefined] or [null] throws. *)
Definition get (v : value) (k : string) : result value :=
  if nullish v then Throw else Ok (prop v k).

(** [v?.k] *)
Definition get_opt (v : value) (k : string) : value :=
  if nullish v then JUndef else prop v k.

(** [a === b].  Arrays and objects compare by identity; the two sides of
    every comparison in this component were allocated apart (one by
    [JSON.parse] of the frame at hand or by the initial state, the other
    by an earlier [JSON.parse] or another position of the same text), so
    they are never the same object. *)
Definition strict_eq (a b : value) : bool :=
  match a, b with
  | JUndef, JUndef | JNull, JNull => true
  | JBool x, JBool y => bool_decide (x = y)
  | JNum x, JNum y => bool_decide (x = y)
  | JStr x, JStr y => String.eqb x y
  | _, _ => false
  end.

Definition join (sep : string) (parts : list string) : string :=
  match parts with
  | [] => ""
  | p :: ps => fold_left (λ acc q, acc +:+ sep +:+ q) ps p
  end.

(** The abstract operation ToString.  An object that has an own
    [toString] property (never callable, coming from JSON) cannot be
    converted; any other object prints as [[object Object]]; an array
    joins its elements, its holes of [null] and [undefined] left empty. *)
Fixpoint ToString (v : value) : result string :=
  match v with
  | JUndef => Ok "undefined"
  | JNull => Ok "null"
  | JBool true => Ok "true"
  | JBool false => Ok "false"
  | JNum n => Ok (pretty n)
  | JStr s => Ok s
  | JArr l =>
      let fix elements (l : list value) : result (list string) :=
        match l with
        | [] => Ok []
        | x :: l' =>
            match (if nullish x then Ok "" else ToString x) with
            | Ok s => match elements l' with
                      | Ok ss => Ok (s :: ss)
                      | Throw => Throw
                      end
            | Throw => Throw
            end
        end in
      match elements l with
      | Ok ss => Ok (join "," ss)
      | Throw => Throw
      end
  | JObj m =>
      match m !! "toString" with
      | Some _ => Throw
      | None => Ok "[object Object]"
      end
  end.

Definition is_substring (needle hay : string) : bool :=
  match String.index 0 needle hay with
  | Some _ => true
  | None => false
  end.

(** [hay?.includes(needle)]: nothing (undefined) on a missing receiver,
    [Array.prototype.includes] on an array, [String.prototype.includes]
    on a string, and a [TypeError] on anything else, which has no
    callable [includes]. *)
Definition includes (hay needle : value) : result value :=
  match hay with
  | JUndef | JNull => Ok JUndef
  | JArr l => Ok (JBool (existsb (strict_eq needle) l))
  | JStr s => s' ← ToString needle; Ok (JBool (is_substring s' s))
  | _ => Throw
  end.

(** [[...v]]: arrays and strings are iterable, nothing else here is. *)
Definition iterate (v : value) : result (list value) :=
  match v with
  | JArr l => Ok l
  | JStr s => Ok (chars s)
  | _ => Throw
  end.

(** [arr.map(f)]: only an array has a callable [map]. *)
Definition array_map (f : value → result value) (arr : value) : result value :=
  match arr with
  | JArr l => JArr <$> mapM f l
  | _ => Throw
  end.

End JS.

(** ** The store: [workflowState] and its updaters *)

(** The readings of the clock an updater takes, in program order:
    [new Date().toLocaleTimeString()] for the message, [Date.now()] and
    [new Date().toLocaleTimeString()] for the activity record. *)
Record clock := Clock {
  message_time : string;
  activity_id : Z;
  activity_time : string;
}.

Definition workflow_step (id name agent : string) : value :=
  JObj (<["id" := JStr id]> (<["name" := JStr name]>
       (<["status" := JStr "pending"]> (<["agent" := JStr agent]> ∅)))).

(** The static catalog, as in the argument of [useState]. *)
Definition workflow_steps : list value :=
  [ workflow_step "triage" "Case Triage" "CaseTriageAgent";
    workflow_step "doctor_matching" "Doctor Matching" "DoctorMatchingAgent";
    workflow_step "appointment_coordination" "Appointment Coordination"
                  "AppointmentCoordinatorAgent";
    workflow_step "doctor_simulation" "Doctor Response Simulation"
                  "DoctorResponseSimulatorAgent";
    workflow_step "calendar_integration" "Calendar Integration"
                  "CalendarIntegrationAgent";
    workflow_step "health_recommendations" "Health Recommendations"
                  "HealthAdvisorAgent" ].

(** The initial [workflowState]. *)
Definition initial_state : gmap string value :=
  <["status" := JStr "idle"]> (
  <["current_step" := JNull]> (
  <["completed_steps" := JArr []]> (
  <["progress_percentage" := JNum 0]> (
  <["messages" := JArr []]> (
  <["agent_activities" := JArr []]> (
  <["current_agent" := JNull]> (
  <["workflow_steps" := JArr workflow_steps]> ∅))))))).

(** [{ ...step, status: s }] *)
Definition with_status (step : value) (s : string) : value :=
  JObj (<["status" := JStr s]> (JS.own_enumerable step)).

(** The callback of [prevState.workflow_steps.map] (lines 91-98). *)
Definition update_step (current_step completed_steps step : value) : result value :=
  id ← JS.get step "id";
  if JS.strict_eq id current_step then Ok (with_status step "running")
  else
    member ← JS.includes completed_steps id;
    Ok (if JS.truthy member then with_status step "completed" else step).

(** [{ ...data.data.message, timestamp: new Date().toLocaleTimeString() }] *)
Definition stamped_message (clk : clock) (message : value) : value :=
  JObj (<["timestamp" := JStr (message_time clk)]> (JS.own_enumerable message)).

(** The object [activity] of lines 76-83. *)
Definition activity_record (clk : clock) (current_agent agent_activity message : value)
  : value :=
  JObj (
    <["id" := JNum (activity_id clk)]> (
    <["timestamp" := JStr (activity_time clk)]> (
    <["agent" := JS.or current_agent (JS.get_opt agent_activity "agent")]> (
    <["action" := JS.or (JS.get_opt agent_activity "action")
                   (JS.or (JS.get_opt message "content") (JStr "Processing..."))]> (
    <["status" := JS.or (JS.get_opt agent_activity "status") (JStr "running")]> (
    <["details" := JS.or (JS.get_opt agent_activity "details") JNull]> ∅)))))).

(** The updater passed to [setWorkflowState] for a [progress_update] frame
    (lines 60-102); [patch] is [data.data]. *)
Definition progress_update (clk : clock) (patch : value)
    (prevState : gmap string value) : result (gmap string value) :=
  let newState := JS.own_enumerable patch ∪ prevState in
  message ← JS.get patch "message";
  newState ←
    (if JS.truthy message then
       messages ← JS.iterate (JS.field prevState "messages");
       Ok (<["messages" := JArr (messages ++ [stamped_message clk message])]> newState)
     else Ok newState);
  current_agent ← JS.get patch "current_agent";
  agent_activity ← JS.get patch "agent_activity";
  newState ←
    (if JS.truthy (JS.or current_agent agent_activity) then
       let activity := activity_record clk current_agent agent_activity message in
       activities ← JS.iterate (JS.field prevState "agent_activities");
       Ok (<["current_agent" := current_agent]>
            (<["agent_activities" := JArr (activities ++ [activity])]> newState))
     else Ok newState);
  current_step ← JS.get patch "current_step";
  if JS.truthy current_step then
    steps ← JS.array_map
               (update_step current_step (JS.field prevState "completed_steps"))
               (JS.field prevState "workflow_steps");
    Ok (<["workflow_steps" := steps]> newState)
  else Ok newState.

(** The updater for a [session_update] frame (lines 104-107). *)
Definition session_update (patch : value) (prevState : gmap string value)
  : gmap string value :=
  JS.own_enumerable patch ∪ prevState.

(** ** The component and its connection

    [JSON.parse] is the host's: a frame reaches the handler as the outcome
    of parsing its text. *)
Inductive payload :=
  | Unparseable
  | Parsed (data : value).

Inductive readyState := CONNECTING | OPEN | CLOSING | CLOSED.

Record socket := Socket { url : string; ready : readyState }.

(** Props and [useState] cells of one mounted [WorkflowProgress]. *)
Record component := Component {
  sessionId : value;
  isVisible : bool;
  workflowState : gmap string value;
  isConnected : bool;
  connectionError : value;
}.

(** An exception thrown by a state updater is raised while React processes
    the update, outside the handler's [try]: it takes the component down. *)
Inductive lifecycle :=
  | Mounted (c : component)
  | Unmounted
  | Crashed.

(** The component together with what it has done to its environment:
    the ref [websocket.current] (a handle into the sockets constructed so
    far), whether the last effect run returned its cleanup function, the
    frames passed to [send], the sockets [close()] was called on, and the
    diagnostics written with [console.error]. *)
Record world := World {
  ui : lifecycle;
  websocket : option nat;
  cleanup : bool;
  sockets : list socket;
  sent : list (nat * value);
  close_calls : list nat;
  errors : list string;
}.

Definition set_ui (u : lifecycle) (w : world) : world :=
  World u (websocket w) (cleanup w) (sockets w) (sent w) (close_calls w) (errors w).
Definition set_websocket (r : option nat) (w : world) : world :=
  World (ui w) r (cleanup w) (sockets w) (sent w) (close_calls w) (errors w).
Definition set_cleanup (b : bool) (w : world) : world :=
  World (ui w) (websocket w) b (sockets w) (sent w) (close_calls w) (errors w).
Definition set_sockets (l : list socket) (w : world) : world :=
  World (ui w) (websocket w) (cleanup w) l (sent w) (close_calls w) (errors w).
Definition console_error (msg : string) (w : world) : world :=
  World (ui w) (websocket w) (cleanup w) (sockets w) (sent w) (close_calls w)
        (errors w ++ [msg]).

(** A state setter reaches a mounted component only. *)
Definition update (f : component → component) (w : world) : world :=
  match ui w with
  | Mounted c => set_ui (Mounted (f c)) w
  | _ => w
  end.

Definition setIsConnected (b : bool) : world → world :=
  update (λ c, Component (sessionId c) (isVisible c) (workflowState c) b
                         (connectionError c)).
Definition setConnectionError (e : value) : world → world :=
  update (λ c, Component (sessionId c) (isVisible c) (workflowState c)
                         (isConnected c) e).
Definition set_props (sid : value) (vis : bool) : world → world :=
  update (λ c, Component sid vis (workflowState c) (isConnected c)
                         (connectionError c)).

(** [setWorkflowState(updater)] *)
Definition setWorkflowState (updater : gmap string value → result (gmap string value))
    (w : world) : world :=
  match ui w with
  | Mounted c =>
      match updater (workflowState c) with
      | Ok st => set_ui (Mounted (Component (sessionId c) (isVisible c) st
                                            (isConnected c) (connectionError c))) w
      | Throw => set_ui Crashed w
      end
  | _ => w
  end.

Definition set_ready (h : nat) (r : readyState) (w : world) : world :=
  set_sockets (alter (λ s, Socket (url s) r) h (sockets w)) w.

Definition ready_of (h : nat) (w : world) : option readyState :=
  ready <$> sockets w !! h.

(** The frame [{ type: 'get_status' }], before [JSON.stringify]. *)
Definition get_status : value := JObj {[ "type" := JStr "get_status" ]}.

(** [websocket.current.send(frame)]: delivered on an open socket; on any
    other (or on no socket) nothing goes out. *)
Definition send (frame : value) (w : world) : world :=
  match websocket w with
  | Some h =>
      match ready_of h w with
      | Some OPEN =>
          World (ui w) (websocket w) (cleanup w) (sockets w)
                (sent w ++ [(h, frame)]) (close_calls w) (errors w)
      | _ => w
      end
  | None => w
  end.

(** [onopen] (lines 46-53) *)
Definition onopen (w : world) : world :=
  send get_status (setConnectionError JNull (setIsConnected true w)).

(** [onmessage] (lines 55-112) *)
Definition onmessage (clk : clock) (p : payload) (w : world) : world :=
  match p with
  | Unparseable => console_error "Error parsing WebSocket message:" w
  | Parsed data =>
      match JS.get data "type" with
      | Throw => console_error "Error parsing WebSocket message:" w
      | Ok type =>
          if JS.strict_eq type (JStr "progress_update") then
            setWorkflowState (progress_update clk (JS.prop data "data")) w
          else if JS.strict_eq type (JStr "session_update") then
            setWorkflowState (λ prevState,
              Ok (session_update (JS.prop data "data") prevState)) w
          else w
      end
  end.

(** [onclose] (lines 114-117) *)
Definition onclose (w : world) : world := setIsConnected false w.

(** [onerror] (lines 119-123) *)
Definition onerror (w : world) : world :=
  setIsConnected false
    (setConnectionError (JStr "Connection failed")
      (console_error "WebSocket error:" w)).

(** [connectWebSocket] (lines 41-129).  [accepted] tells whether the host's
    [new WebSocket(url)] returns a socket or throws. *)
Definition connectWebSocket (accepted : bool) (sid : value) (w : world) : world :=
  match JS.ToString sid with
  | Ok id =>
      if accepted then
        set_websocket (Some (length (sockets w)))
          (set_sockets (sockets w ++ [Socket ("ws://localhost:8000/ws/" +:+ id) CONNECTING]) w)
      else
        setConnectionError (JStr "Failed to establish connection")
          (console_error "Failed to connect WebSocket:" w)
  | Throw =>
      setConnectionError (JStr "Failed to establish connection")
        (console_error "Failed to connect WebSocket:" w)
  end.

(** The body of the effect (lines 37-139), run after a render whose
    [sessionId] or [isVisible] changed. *)
Definition run_effect (accepted : bool) (w : world) : world :=
  match ui w with
  | Mounted c =>
      if negb (JS.truthy (sessionId c)) || negb (isVisible c) then set_cleanup false w
      else set_cleanup true (connectWebSocket accepted (sessionId c) w)
  | _ => w
  end.

(** [socket.close()]: an open or connecting socket starts closing. *)
Definition close (h : nat) (w : world) : world :=
  let w' := World (ui w) (websocket w) (cleanup w) (sockets w) (sent w)
                  (close_calls w ++ [h]) (errors w) in
  match ready_of h w with
  | Some CONNECTING | Some OPEN => set_ready h CLOSING w'
  | _ => w'
  end.

(** The cleanup function the effect returns (lines 134-138). *)
Definition run_cleanup (w : world) : world :=
  if cleanup w then
    match websocket w with
    | Some h => close h w
    | None => w
    end
  else w.

Definition initial_component (sid : value) (vis : bool) : component :=
  Component sid vis initial_state false JNull.

(** First render and first effect run. *)
Definition mount (sid : value) (vis : bool) (accepted : bool) : world :=
  run_effect accepted (World (Mounted (initial_component sid vis)) None false [] [] [] []).

Inductive event :=
  | Render (sid : value) (vis : bool) (accepted : bool)
  | Unmount
  | WsOpen (h : nat)
  | WsMessage (h : nat) (clk : clock) (p : payload)
  | WsClosed (h : nat) (failed : bool).

(** One task of the event loop; [None] when the host cannot deliver the
    event in this world (a socket opens once, delivers messages only while
    open, and is closed once; a failure fires [error] before [close]). *)
Definition step (e : event) (w : world) : option world :=
  match e with
  | Render sid vis accepted =>
      match ui w with
      | Mounted c =>
          if JS.strict_eq (sessionId c) sid && bool_decide (isVisible c = vis)
          then Some (set_props sid vis w)
          else Some (run_effect accepted (set_props sid vis (run_cleanup w)))
      | _ => None
      end
  | Unmount =>
      match ui w with
      | Mounted _ => Some (set_ui Unmounted (run_cleanup w))
      | _ => None
      end
  | WsOpen h =>
      match ready_of h w with
      | Some CONNECTING => Some (onopen (set_ready h OPEN w))
      | _ => None
      end
  | WsMessage h clk p =>
      match ready_of h w with
      | Some OPEN => Some (onmessage clk p w)
      | _ => None
      end
  | WsClosed h failed =>
      match ready_of h w with
      | Some CLOSED | None => None
      | Some _ =>
          let w := set_ready h CLOSED w in
          Some (onclose (if failed then onerror w else w))
      end
  end.

Fixpoint run (es : list event) (w : world) : option world :=
  match es with
  | [] => Some w
  | e :: es' => w' ← step e w; run es' w'
  end.

Definition state_of (w : world) : option (gmap string value) :=
  match ui w with
  | Mounted c => Some (workflowState c)
  | _ => None
  end.

(** Building frames for the examples. *)
Definition object (kvs : list (string * value)) : value := JObj (list_to_map kvs).
Definition frame (type : string) (patch : list (string * value)) : payload :=
  Parsed (object [("type", JStr type); ("data", object patch)]).


(** ** Vocabulary of the statements *)

(** A log of the store, read as the list it holds. *)
Definition log (k : string) (st : gmap string value) : list value :=
  match JS.field st k with
  | JArr l => l
  | _ => []
  end.

(** The [status] of every entry of [workflow_steps], in catalog order. *)
Definition statuses (st : gmap string value) : list value :=
  (λ step, JS.prop step "status") <$> log "workflow_steps" st.

Definition is_array (v : value) : bool :=
  match v with JArr _ => true | _ => false end.

(** The patch fields of the Event Schema. *)
Definition recognised : list string :=
  [ "status"; "current_step"; "completed_steps"; "progress_percentage";
    "current_agent"; "final_result"; "message"; "agent_activity" ].

(** A patch of the Event Schema: an object that carries recognised fields
    only, its [completed_steps], when carried, an array. *)
Definition schema_patch (patch : value) : bool :=
  match patch with
  | JObj m =>
      bool_decide (dom m ⊆ list_to_set recognised)
      && match m !! "completed_steps" with
         | Some v => is_array v
         | None => true
         end
  | _ => false
  end.

(** A store of the data model: both logs and the step list are arrays, no
    step is [null], and [completed_steps] is an array or missing. *)
Definition typed_state (st : gmap string value) : bool :=
  is_array (JS.field st "messages")
  && is_array (JS.field st "agent_activities")
  && match JS.field st "workflow_steps" with
     | JArr steps => forallb (λ step, negb (JS.nullish step)) steps
     | _ => false
     end
  && (JS.nullish (JS.field st "completed_steps")
      || is_array (JS.field st "completed_steps")).

(** The branch [onmessage] takes on a payload. *)
Inductive kind :=
  | ProgressUpdate (patch : value)
  | SessionUpdate (patch : value)
  | Ignored
  | Malformed.

Definition classify (p : payload) : kind :=
  match p with
  | Unparseable => Malformed
  | Parsed data =>
      match JS.get data "type" with
      | Throw => Malformed
      | Ok type =>
          if JS.strict_eq type (JStr "progress_update")
          then ProgressUpdate (JS.prop data "data")
          else if JS.strict_eq type (JStr "session_update")
          then SessionUpdate (JS.prop data "data")
          else Ignored
      end
  end.

(** A payload whose patch, if it is of a recognised kind, is of the schema. *)
Definition schema_payload (p : payload) : bool :=
  match classify p with
  | ProgressUpdate patch | SessionUpdate patch => schema_patch patch
  | _ => true
  end.

(** The test of line 67 and the entry it appends. *)
Definition carries_message (patch : value) : bool :=
  JS.truthy (JS.prop patch "message").

Definition new_messages (clk : clock) (patch : value) : list value :=
  if carries_message patch
  then [stamped_message clk (JS.prop patch "message")]
  else [].

(** The test of line 75 and the record it appends. *)
Definition qualifies (patch : value) : bool :=
  JS.truthy (JS.or (JS.prop patch "current_agent") (JS.prop patch "agent_activity")).

Definition new_activities (clk : clock) (patch : value) : list value :=
  if qualifies patch
  then [activity_record clk (JS.prop patch "current_agent")
                        (JS.prop patch "agent_activity") (JS.prop patch "message")]
  else [].

Definition message_entries (f : clock * payload) : list value :=
  match classify f.2 with
  | ProgressUpdate patch => new_messages f.1 patch
  | _ => []
  end.

Definition activity_entries (f : clock * payload) : list value :=
  match classify f.2 with
  | ProgressUpdate patch => new_activities f.1 patch
  | _ => []
  end.

Definition qualifying (f : clock * payload) : bool :=
  match classify f.2 with
  | ProgressUpdate patch => qualifies patch
  | _ => false
  end.

(** Frames handed to [onmessage] one after the other, in arrival order. *)
Definition deliver (fs : list (clock * payload)) (w : world) : world :=
  foldl (λ w f, onmessage f.1 f.2 w) w fs.

(** Connections. *)
Definition live (r : readyState) : bool :=
  match r with CONNECTING | OPEN => true | _ => false end.

(** No socket is connecting or open. *)
Definition quiescent (w : world) : Prop :=
  ∀ h s, sockets w !! h = Some s → live (ready s) = false.

(** A socket that is connecting or open is the one the ref holds, and the
    cleanup function that will close it is registered. *)
Definition owned (w : world) : Prop :=
  ∀ h s, sockets w !! h = Some s → live (ready s) = true →
         websocket w = Some h ∧ cleanup w = true.

(** The cleanup function is registered by a visible component only. *)
Definition cleanup_visible (w : world) : Prop :=
  ∀ c, ui w = Mounted c → cleanup w = true → isVisible c = true.

(** What the handlers leave alone: they neither construct nor close a
    socket, and never touch the ref or the registered cleanup. *)
Definition same_connections (w w' : world) : Prop :=
  sockets w' = sockets w ∧ websocket w' = websocket w ∧ cleanup w' = cleanup w.

(** A handler neither mounts the component nor changes [isVisible]. *)
Definition keeps_visibility (w w' : world) : Prop :=
  ∀ c', ui w' = Mounted c' → ∃ c, ui w = Mounted c ∧ isVisible c' = isVisible c.

Definition socket_event (e : event) : bool :=
  match e with
  | WsOpen _ | WsMessage _ _ _ | WsClosed _ _ => true
  | _ => false
  end.

Inductive reachable : world → Prop :=
  | reachable_mount sid vis accepted : reachable (mount sid vis accepted)
  | reachable_step e w w' : reachable w → step e w = Some w' → reachable w'.

(** ** Concrete frames, clocks and runs *)

Definition clk0 : clock := Clock "10:00:00" 1000 "10:00:00".
Definition clk1 : clock := Clock "10:00:05" 6000 "10:00:05".

Definition run1 : world := mount (JStr "run-1") true true.

Definition triage_running : payload :=
  frame "progress_update" [("current_step", JStr "triage")].
Definition matching_running : payload :=
  frame "progress_update"
    [("completed_steps", JArr [JStr "triage"]); ("current_step", JStr "doctor_matching")].
Definition matching_only : payload :=
  frame "progress_update" [("current_step", JStr "doctor_matching")].

Definition pending6 : list value :=
  [JStr "pending"; JStr "pending"; JStr "pending";
   JStr "pending"; JStr "pending"; JStr "pending"].

Definition agent_announced : payload :=
  frame "progress_update" [("current_agent", JStr "CaseTriageAgent")].
Definition activity_only_patch : value :=
  object [("agent_activity", object [("action", JStr "Reviewing scan")])].
Definition activity_only : payload :=
  Parsed (object [("type", JStr "progress_update"); ("data", activity_only_patch)]).
Definition agent_state : gmap string value :=
  <["current_agent" := JStr "CaseTriageAgent"]> initial_state.

Definition critical_message : value :=
  object [("content", JStr "Case classified as CRITICAL"); ("timestamp", JStr "09:59:58")].
Definition critical_stamped : payload :=
  frame "progress_update" [("message", critical_message)].
Definition critical : payload :=
  frame "progress_update"
    [("message", object [("content", JStr "Case classified as CRITICAL")]);
     ("current_agent", JStr "CaseTriageAgent")].
Definition session_running : payload :=
  frame "session_update" [("status", JStr "running"); ("progress_percentage", JNum 40)].

(** What the status line of the view is rendered from. *)
Definition connection_of (w : world) : option (bool * value) :=
  match ui w with
  | Mounted c => Some (isConnected c, connectionError c)
  | _ => None
  end.

Definition untyped : payload :=
  Parsed (object [("data", object [("status", JStr "running")])]).
Definition heartbeat : payload := frame "heartbeat" [("status", JStr "running")].

(** ** Vocabulary of the properties beyond the claims *)

(** What one frame may do to a step: every field but [status] stays, and
    the status is set to "running" or "completed" or left as it was. *)
Definition step_kept (step step' : value) : Prop :=
  delete "status" (JS.own_enumerable step') = delete "status" (JS.own_enumerable step)
  ∧ (JS.prop step' "status" = JStr "running"
     ∨ JS.prop step' "status" = JStr "completed"
     ∨ JS.prop step' "status" = JS.prop step "status").

(** The three statuses the component itself writes. *)
Definition own_status (step : value) : Prop :=
  JS.prop step "status" = JStr "pending"
  ∨ JS.prop step "status" = JStr "running"
  ∨ JS.prop step "status" = JStr "completed".

(** ** What the view shows

    The helpers of lines 141-207 and the expressions of the JSX that use
    them.  A string literal with characters outside ASCII stands for its
    UTF-8 bytes; such strings are only compared and concatenated here. *)

Module View.

(** [s.split(sep)] for a separator that is not empty: the pieces between
    the occurrences of [sep], found from the left without overlap. *)
Fixpoint split_from (sep : string) (skip : nat) (piece s : string) : list string :=
  match s with
  | EmptyString => [piece]
  | String c s' =>
      match skip with
      | S k => split_from sep k piece s'
      | O =>
          if String.prefix sep s
          then piece :: split_from sep (String.length sep - 1) "" s'
          else split_from sep 0 (piece +:+ String c "") s'
      end
  end.

Definition split (sep s : string) : list string := split_from sep 0 "" s.

(** [receiver.includes(needle)], without optional chaining. *)
Definition call_includes (receiver needle : value) : result value :=
  if JS.nullish receiver then Throw else JS.includes receiver needle.

(** [typeof v === 'object'] *)
Definition typeof_object (v : value) : bool :=
  match v with
  | JNull | JArr _ | JObj _ => true
  | _ => false
  end.

(** The property names every object literal inherits from
    [Object.prototype]. *)
Definition Object_prototype : list string :=
  [ "constructor"; "__defineGetter__"; "__defineSetter__"; "hasOwnProperty";
    "__lookupGetter__"; "__lookupSetter__"; "isPrototypeOf";
    "propertyIsEnumerable"; "toString"; "valueOf"; "__proto__";
    "toLocaleString" ].

(** What a read finds on an object literal: a value of the table (or
    [undefined]), or a member inherited from [Object.prototype], which is
    a function or an object and so is truthy. *)
Inductive member :=
  | Own (v : value)
  | Inherited (name : string).

(** [table[key]] on an object literal whose values are strings. *)
Definition literal_get (table : list (string * string)) (key : value) : result member :=
  k ← JS.ToString key;
  match (list_to_map table : gmap string string) !! k with
  | Some s => Ok (Own (JStr s))
  | None =>
      if bool_decide (k ∈ Object_prototype) then Ok (Inherited k) else Ok (Own JUndef)
  end.

(** [m || fallback] *)
Definition or_member (m : member) (fallback : value) : member :=
  match m with
  | Own v => Own (JS.or v fallback)
  | Inherited name => Inherited name
  end.

(** [getStepIcon] (lines 141-152): the class and the glyph of the element. *)
Definition getStepIcon (step : value) : result (string * string) :=
  status ← JS.get step "status";
  Ok (if JS.strict_eq status (JStr "completed") then ("step-icon completed", "✓")
      else if JS.strict_eq status (JStr "running") then ("step-icon running", "⟳")
      else if JS.strict_eq status (JStr "error") then ("step-icon error", "✗")
      else ("step-icon pending", "○")).

Definition descriptions : list (string * string) :=
  [ ("triage", "Analyzing case severity and classification");
    ("doctor_matching", "Finding suitable specialists based on findings");
    ("appointment_coordination", "Sending requests to available doctors");
    ("doctor_simulation", "Processing doctor responses and confirmations");
    ("calendar_integration", "Creating calendar events and finalizing appointments");
    ("health_recommendations", "Generating personalized health recommendations") ].

(** [getStepDescription] (lines 154-164) *)
Definition getStepDescription (step : value) : result member :=
  id ← JS.get step "id";
  found ← literal_get descriptions id;
  Ok (or_member found (JS.prop step "name")).

Definition icons : list (string * string) :=
  [ ("CaseTriageAgent", "🏥"); ("DoctorMatchingAgent", "👨‍⚕️"); ("AppointmentCoordinatorAgent", "📅");
    ("DoctorResponseSimulatorAgent", "🤖"); ("CalendarIntegrationAgent", "🗓️"); ("HealthAdvisorAgent", "🏃‍♂️") ].

(** [getAgentIcon] (lines 166-176) *)
Definition getAgentIcon (agentName : value) : result member :=
  found ← literal_get icons agentName;
  Ok (or_member found (JStr "🔍")).

Definition colors : list (string * string) :=
  [ ("running", "#3498db"); ("completed", "#27ae60"); ("error", "#e74c3c");
    ("pending", "#95a5a6"); ("success", "#27ae60") ].

(** [getStatusColor] (lines 178-187) *)
Definition getStatusColor (status : value) : result member :=
  found ← literal_get colors status;
  Ok (or_member found (JStr "#95a5a6")).

(** [activity.action.split('classified as: ')[1]], then the template
    literal of line 192. *)
Definition classification (action : value) : result value :=
  match action with
  | JStr s =>
      text ← JS.ToString (default JUndef (JStr <$> split "classified as: " s !! 1));
      Ok (JStr ("🏥 Case classified: " +:+ text))
  | _ => Throw
  end.

(** [formatAgentActivity] (lines 189-207) *)
Definition formatAgentActivity (activity : value) : result value :=
  action ← JS.get activity "action";
  classified ← call_includes action (JStr "classified as");
  if JS.truthy classified then classification action
  else
    selected ← call_includes action (JStr "Selected");
    doctors ← (if JS.truthy selected then call_includes action (JStr "doctors")
               else Ok selected);
    if JS.truthy doctors then Ok (JStr "👨‍⚕️ Found specialists for consultation")
    else
      sent ← call_includes action (JStr "Sent appointment requests");
      if JS.truthy sent then Ok (JStr "📅 Appointment requests sent to doctors")
      else
        accepted ← call_includes action (JStr "ACCEPTED");
        confirmed ← (if JS.truthy accepted then Ok accepted
                     else call_includes action (JStr "confirmed"));
        if JS.truthy confirmed then Ok (JStr "✅ Appointment confirmed with doctor")
        else
          calendar ← call_includes action (JStr "Calendar integration");
          if JS.truthy calendar then Ok (JStr "🗓️ Calendar event created successfully")
          else Ok action.

(** The class of a step's row (line 280). *)
Definition step_className (st : gmap string value) (step : value) : result string :=
  status ← JS.get step "status";
  class ← JS.ToString status;
  id ← JS.get step "id";
  Ok ("workflow-step " +:+ class +:+ " "
      +:+ (if JS.strict_eq (JS.field st "current_step") id then "active" else "")).

(** [agent && (<span>{getAgentIcon(agent)} {agent}</span>)]: a falsy
    [agent] is the value of the expression, a truthy one gives the badge. *)
Inductive shown :=
  | Bare (v : value)
  | Badge (icon : member) (agent : value).

Definition agent_badge (agent : value) : result shown :=
  if JS.truthy agent then icon ← getAgentIcon agent; Ok (Badge icon agent)
  else Ok (Bare agent).

(** The status line (lines 219-236). *)
Inductive status_line :=
  | Connected (agent : shown)
  | Disconnected (text : value).

Definition connection_status (c : component) : result status_line :=
  if isConnected c
  then agent ← agent_badge (JS.field (workflowState c) "current_agent");
       Ok (Connected agent)
  else Ok (Disconnected (JS.or (connectionError c) (JStr "Connecting..."))).

(** One entry of the messages tab (lines 369-385); [now] is the reading
    [new Date().toLocaleTimeString()] of the render. *)
Record message_view := MessageView {
  shown_time : value;
  shown_agent : shown;
  shown_content : value;
}.

Definition render_message (now : string) (message : value) : result message_view :=
  timestamp ← JS.get message "timestamp";
  agent ← JS.get message "agent";
  badge ← agent_badge agent;
  Ok (MessageView (JS.or timestamp (JStr now)) badge
        (if typeof_object message
         then JS.or (JS.prop message "content") (JS.prop message "text")
         else message)).

(** The messages tab (lines 363-386): the placeholder (no entry) when
    [messages.length === 0], one entry per message otherwise. *)
Definition render_messages (now : string) (st : gmap string value)
  : result (list message_view) :=
  let messages := JS.field st "messages" in
  len ← JS.get messages "length";
  if JS.strict_eq len (JNum 0) then Ok []
  else match messages with
       | JArr l => mapM (render_message now) l
       | _ => Throw
       end.

(** One entry of the agents tab (lines 324-352). *)
Inductive details_view :=
  | NoDetails (v : value)
  | Stringified (v : value)
  | Plain (v : value).

Record activity_view := ActivityView {
  activity_key : value;
  activity_class : string;
  activity_agent : member * value;
  activity_timestamp : value;
  activity_text : value;
  activity_details : details_view;
  activity_color : member;
  activity_status : option string;
}.

Definition render_activity (activity : value) : result activity_view :=
  key ← JS.get activity "id";
  status ← JS.get activity "status";
  class ← JS.ToString status;
  agent ← JS.get activity "agent";
  icon ← getAgentIcon agent;
  timestamp ← JS.get activity "timestamp";
  text ← formatAgentActivity activity;
  details ← JS.get activity "details";
  color ← getStatusColor status;
  Ok (ActivityView key ("activity-item " +:+ class) (icon, agent) timestamp text
        (if JS.truthy details
         then if typeof_object details then Stringified details else Plain details
         else NoDetails details)
        color
        (if JS.strict_eq status (JStr "running") then Some "⟳ Processing..."
         else if JS.strict_eq status (JStr "completed") then Some "✓ Completed"
         else if JS.strict_eq status (JStr "error") then Some "✗ Error"
         else None)).

(** The agents tab (lines 318-353). *)
Definition render_activities (st : gmap string value) : result (list activity_view) :=
  let activities := JS.field st "agent_activities" in
  len ← JS.get activities "length";
  if JS.strict_eq len (JNum 0) then Ok []
  else match activities with
       | JArr l => mapM render_activity l
       | _ => Throw
       end.

End View.


(** The fields of a step other than its [status]. *)
Definition step_identity (step : value) : gmap string value :=
  delete "status" (JS.own_enumerable step).

(** A fresh run of the component: mounted, with the initial store. *)
Definition fresh (w : world) : Prop :=
  ∃ c, ui w = Mounted c ∧ workflowState c = initial_state.


(** The test of line 280: the step is the store's [current_step]. *)
Definition active (st : gmap string value) (step : value) : bool :=
  JS.strict_eq (JS.field st "current_step") (JS.prop step "id").

(** Every step marked active has the status "running". *)
Definition active_running (st : gmap string value) : Prop :=
  Forall (λ step, active st step = true → JS.prop step "status" = JStr "running")
         (log "workflow_steps" st).

(** Every step has an id that is not empty. *)
Definition named (st : gmap string value) : Prop :=
  Forall (λ step, JS.truthy (JS.prop step "id") = true) (log "workflow_steps" st).

(** A payload that is not a [session_update] carrying a [current_step]. *)
Definition keeps_current_step (p : payload) : bool :=
  match classify p with
  | SessionUpdate patch =>
      bool_decide (JS.own_enumerable patch !! "current_step" = None)
  | _ => true
  end.


Definition no_data (type : string) : payload :=
  Parsed (object [("type", JStr type)]).
Definition status_only_patch : value :=
  object [("status", JStr "running"); ("progress_percentage", JNum 40)].
Definition completed_patch : value :=
  object [("status", JStr "completed"); ("progress_percentage", JNum 100)].


(** A socket that is connecting or open belongs to a visible component
    with a run id, and was opened under the URL of that run id. *)
Definition scoped (w : world) : Prop :=
  ∀ c h s, ui w = Mounted c → sockets w !! h = Some s → live (ready s) = true →
           isVisible c = true
           ∧ JS.truthy (sessionId c) = true
           ∧ ∃ id, JS.ToString (sessionId c) = Ok id
                   ∧ url s = "ws://localhost:8000/ws/" +:+ id.

(** A handler neither mounts the component nor changes its props. *)
Definition keeps_props (w w' : world) : Prop :=
  ∀ c', ui w' = Mounted c' →
        ∃ c, ui w = Mounted c
             ∧ isVisible c' = isVisible c ∧ sessionId c' = sessionId c.

(** The sockets a handler leaves: the same handles and URLs, none newly
    connecting or open. *)
Definition sockets_fade (w w' : world) : Prop :=
  ∀ h s', sockets w' !! h = Some s' →
          ∃ s, sockets w !! h = Some s ∧ url s' = url s
               ∧ (live (ready s') = true → live (ready s) = true)
               ∧ (ready s' = CONNECTING → ready s = CONNECTING).

(** Every frame sent is [get_status], on a socket that has opened, and no
    socket was sent two frames. *)
Definition sent_once (w : world) : Prop :=
  NoDup (sent w).*1
  ∧ ∀ h f, (h, f) ∈ sent w →
           f = get_status
           ∧ ∃ s, sockets w !! h = Some s ∧ ready s ≠ CONNECTING.


(** A socket that has left the connecting state never returns to it. *)
Definition sockets_age (w w' : world) : Prop :=
  ∀ h s, sockets w !! h = Some s → ready s ≠ CONNECTING →
         ∃ s', sockets w' !! h = Some s' ∧ ready s' ≠ CONNECTING.


(** Run 1 with its socket open; the same view then shown for a second run
    id; and the socket of the second run open while the first is closing. *)
Definition opened1 : world := default run1 (step (WsOpen 0) run1).
Definition run2 : world :=
  default opened1 (step (Render (JStr "run-2") true true) opened1).
Definition opened2 : world := default run2 (step (WsOpen 1) run2).


(** Values that have a callable [includes]: strings and arrays. *)
Definition text_or_list (v : value) : bool :=
  match v with
  | JStr _ | JArr _ => true
  | _ => false
  end.

(** The activity record the store holds for the frame [critical]. *)
Definition critical_activity : value :=
  activity_record clk0 (JStr "CaseTriageAgent") JUndef
    (object [("content", JStr "Case classified as CRITICAL")]).
Definition graded_activity : value :=
  object [("action", JStr "Case classified as: HIGH")].
Definition counted_patch : value :=
  object [("agent_activity", object [("agent", JStr "CaseTriageAgent");
                                     ("action", JNum 3)])].


Definition text_patch : value := object [("message", JStr "Triage started")].


(** The tags under a step (lines 289-305): the value of [step.data] when
    it is falsy, else the classification, the number of doctors contacted
    (or the falsy [selected_doctors]) and whether an appointment is
    confirmed. *)
Inductive step_data_view :=
  | NoData (data : value)
  | Data (classification doctors : value) (confirmed : bool).

Definition step_data (step : value) : result step_data_view :=
  data ← JS.get step "data";
  if JS.truthy data then
    let selected := JS.prop data "selected_doctors" in
    doctors ← (if JS.truthy selected then JS.get selected "length" else Ok selected);
    Ok (Data (JS.prop data "classification") doctors
             (JS.truthy (JS.prop data "confirmed_appointment")))
  else Ok (NoData data).

Definition announced_patch : value := object [("current_agent", JStr "CaseTriageAgent")].


(** A payload of the given type around a patch. *)
Definition envelope (type : string) (patch : value) : payload :=
  Parsed (object [("type", JStr type); ("data", patch)]).
Definition cleared_log_patch : value := object [("messages", JNull)].

(** ** The JavaScript layer *)

Lemma prop_object m k : JS.prop (JObj m) k = JS.field m k.
Proof. unfold JS.prop. by destruct (String.eqb k "length"). Qed.

Lemma get_object m k : JS.get (JObj m) k = Ok (JS.field m k).
Proof. unfold JS.get. simpl. by rewrite prop_object. Qed.

Lemma is_array_inv v : is_array v = true → ∃ l, v = JArr l.
Proof. destruct v; try discriminate. eauto. Qed.

Lemma schema_patch_inv patch :
  schema_patch patch = true →
  ∃ m, patch = JObj m
       ∧ (∀ k, k ∉ recognised → m !! k = None)
       ∧ (∀ v, m !! "completed_steps" = Some v → is_array v = true).
Proof.
  destruct patch as [| | | | | |m]; try discriminate. unfold schema_patch.
  intros [Hdom Hcs]%andb_prop. apply bool_decide_eq_true in Hdom.
  exists m. split; [done|]. split.
  - intros k Hk. apply not_elem_of_dom. intros Hin. apply Hk.
    apply Hdom in Hin. by apply elem_of_list_to_set in Hin.
  - intros v Hv. by rewrite Hv in Hcs.
Qed.

Lemma update_step_total cur cs step :
  JS.nullish step = false →
  JS.nullish cs || is_array cs = true →
  ∃ step', update_step cur cs step = Ok step' ∧ JS.nullish step' = false.
Proof.
  intros Hstep Hcs. unfold update_step, JS.get. rewrite Hstep. simpl.
  destruct (JS.strict_eq _ cur); [by eexists|].
  destruct cs; try discriminate; simpl; try (by eexists).
  destruct (existsb _ _); by eexists.
Qed.

Lemma map_steps_total cur cs steps :
  forallb (λ step, negb (JS.nullish step)) steps = true →
  JS.nullish cs || is_array cs = true →
  ∃ steps', mapM (update_step cur cs) steps = Ok steps'
            ∧ forallb (λ step, negb (JS.nullish step)) steps' = true.
Proof.
  intros Hsteps Hcs. induction steps as [|step steps IH]; simpl in *.
  - by eexists.
  - apply andb_prop in Hsteps as [Hstep Hsteps%IH]. apply negb_true_iff in Hstep.
    destruct Hsteps as (steps' & -> & Hall).
    destruct (update_step_total cur cs step Hstep Hcs) as (step' & -> & Hn).
    simpl. eexists. split; [done|]. simpl. by rewrite Hn, Hall.
Qed.

(** ** One [progress_update] frame on a store of the data model *)

Lemma field_insert_eq st k v : JS.field (<[k := v]> st) k = v.
Proof. unfold JS.field. by rewrite lookup_insert_eq. Qed.

Lemma field_insert_ne st k k' v : k ≠ k' → JS.field (<[k := v]> st) k' = JS.field st k'.
Proof. intros. unfold JS.field. by rewrite lookup_insert_ne. Qed.

Lemma field_union m st k :
  JS.field (m ∪ st) k = match m !! k with Some v => v | None => JS.field st k end.
Proof.
  unfold JS.field. destruct (m !! k) as [v|] eqn:Hk.
  - by rewrite (lookup_union_Some_l _ _ _ _ Hk).
  - by rewrite lookup_union_r.
Qed.

Lemma typed_state_inv st :
  typed_state st = true →
  ∃ lm la steps,
    JS.field st "messages" = JArr lm
    ∧ JS.field st "agent_activities" = JArr la
    ∧ JS.field st "workflow_steps" = JArr steps
    ∧ forallb (λ step, negb (JS.nullish step)) steps = true
    ∧ JS.nullish (JS.field st "completed_steps")
      || is_array (JS.field st "completed_steps") = true.
Proof.
  unfold typed_state.
  intros [[[[lm Hm]%is_array_inv [la Ha]%is_array_inv]%andb_prop Hs]%andb_prop Hc]%andb_prop.
  destruct (JS.field st "workflow_steps") as [| | | | |steps|] eqn:Hw; try discriminate.
  by exists lm, la, steps.
Qed.

Lemma typed_state_intro st lm la steps :
  JS.field st "messages" = JArr lm →
  JS.field st "agent_activities" = JArr la →
  JS.field st "workflow_steps" = JArr steps →
  forallb (λ step, negb (JS.nullish step)) steps = true →
  JS.nullish (JS.field st "completed_steps")
    || is_array (JS.field st "completed_steps") = true →
  typed_state st = true.
Proof. unfold typed_state. by intros -> -> -> -> ->. Qed.

Ltac not_listed :=
  let H := fresh in
  intros H; repeat (apply elem_of_cons in H as [H|H]; [discriminate H|]);
  by apply elem_of_nil in H.

Lemma progress_update_schema clk patch st :
  typed_state st = true → schema_patch patch = true →
  ∃ st', progress_update clk patch st = Ok st'
         ∧ typed_state st' = true
         ∧ log "messages" st' = log "messages" st ++ new_messages clk patch
         ∧ log "agent_activities" st'
           = log "agent_activities" st ++ new_activities clk patch.
Proof.
  intros (lm & la & steps & Hm & Ha & Hw & Hsteps & Hc)%typed_state_inv
         (m & -> & Habs & Hcs)%schema_patch_inv.
  assert (m !! "messages" = None) as Hm0 by (apply Habs; not_listed).
  assert (m !! "agent_activities" = None) as Ha0 by (apply Habs; not_listed).
  assert (m !! "workflow_steps" = None) as Hw0 by (apply Habs; not_listed).
  assert (JS.nullish (JS.field (m ∪ st) "completed_steps")
          || is_array (JS.field (m ∪ st) "completed_steps") = true) as Hc'.
  { rewrite field_union. destruct (m !! "completed_steps") as [v|] eqn:Hv; [|done].
    rewrite (Hcs v eq_refl). apply orb_true_r. }
  destruct (map_steps_total (JS.field m "current_step")
              (JS.field st "completed_steps") steps Hsteps Hc) as (steps' & Hmap & Hsteps').
  unfold progress_update, new_messages, new_activities, carries_message, qualifies, log.
  rewrite !get_object, !prop_object, Hm, Ha, Hw. simpl. rewrite Hmap. simpl.
  destruct (JS.truthy (JS.field m "message")),
           (JS.truthy (JS.or (JS.field m "current_agent") (JS.field m "agent_activity"))),
           (JS.truthy (JS.field m "current_step")); simpl.
  all: eexists; split; [done|].
  all: split; [eapply typed_state_intro | split].
  all: repeat (rewrite field_insert_eq || rewrite field_insert_ne by done).
  all: rewrite ?field_union, ?Hm0, ?Ha0, ?Hw0, ?Hm, ?Ha, ?Hw, ?app_nil_r; try done.
  all: by rewrite <- field_union.
Qed.

Lemma session_update_schema patch st :
  typed_state st = true → schema_patch patch = true →
  typed_state (session_update patch st) = true
  ∧ log "messages" (session_update patch st) = log "messages" st
  ∧ log "agent_activities" (session_update patch st) = log "agent_activities" st.
Proof.
  intros (lm & la & steps & Hm & Ha & Hw & Hsteps & Hc)%typed_state_inv
         (m & -> & Habs & Hcs)%schema_patch_inv.
  assert (m !! "messages" = None) as Hm0 by (apply Habs; not_listed).
  assert (m !! "agent_activities" = None) as Ha0 by (apply Habs; not_listed).
  assert (m !! "workflow_steps" = None) as Hw0 by (apply Habs; not_listed).
  unfold session_update, log. simpl.
  split; [eapply typed_state_intro | split].
  all: rewrite ?field_union, ?Hm0, ?Ha0, ?Hw0; try done.
  destruct (m !! "completed_steps") as [v|] eqn:Hv; [|done].
  rewrite (Hcs v eq_refl). apply orb_true_r.
Qed.

(** ** Frames through [onmessage] *)

Lemma onmessage_classify clk p w :
  onmessage clk p w =
  match classify p with
  | ProgressUpdate patch => setWorkflowState (progress_update clk patch) w
  | SessionUpdate patch =>
      setWorkflowState (λ prevState, Ok (session_update patch prevState)) w
  | Ignored => w
  | Malformed => console_error "Error parsing WebSocket message:" w
  end.
Proof.
  unfold onmessage, classify. destruct p as [|data]; [done|].
  destruct (JS.get data "type") as [type|]; [|done].
  by repeat case_match.
Qed.

Lemma onmessage_schema clk p w c :
  ui w = Mounted c →
  typed_state (workflowState c) = true →
  schema_payload p = true →
  ∃ c', ui (onmessage clk p w) = Mounted c'
        ∧ typed_state (workflowState c') = true
        ∧ log "messages" (workflowState c')
          = log "messages" (workflowState c) ++ message_entries (clk, p)
        ∧ log "agent_activities" (workflowState c')
          = log "agent_activities" (workflowState c) ++ activity_entries (clk, p).
Proof.
  intros Hui Hst Hp. rewrite onmessage_classify.
  unfold schema_payload, message_entries, activity_entries in *. simpl.
  destruct (classify p) as [patch|patch| |].
  - destruct (progress_update_schema clk patch _ Hst Hp) as (st' & Hup & Hst' & Hm & Ha).
    unfold setWorkflowState. rewrite Hui, Hup. simpl. by eexists.
  - destruct (session_update_schema patch _ Hst Hp) as (Hst' & Hm & Ha).
    unfold setWorkflowState. rewrite Hui. simpl. eexists. split; [done|]. simpl.
    by rewrite Hm, Ha, !app_nil_r.
  - exists c. by rewrite !app_nil_r.
  - exists c. by rewrite !app_nil_r.
Qed.

Lemma deliver_schema fs : ∀ w c,
  ui w = Mounted c →
  typed_state (workflowState c) = true →
  forallb (λ f, schema_payload f.2) fs = true →
  ∃ c', ui (deliver fs w) = Mounted c'
        ∧ typed_state (workflowState c') = true
        ∧ log "messages" (workflowState c')
          = log "messages" (workflowState c) ++ flat_map message_entries fs
        ∧ log "agent_activities" (workflowState c')
          = log "agent_activities" (workflowState c) ++ flat_map activity_entries fs.
Proof.
  induction fs as [|[clk p] fs IH]; intros w c Hui Hst Hfs; simpl in *.
  - exists c. by rewrite !app_nil_r.
  - apply andb_prop in Hfs as [Hp Hfs].
    destruct (onmessage_schema clk p w c Hui Hst Hp) as (c1 & Hui1 & Hst1 & Hm1 & Ha1).
    destruct (IH _ c1 Hui1 Hst1 Hfs) as (c' & Hui' & Hst' & Hm' & Ha').
    exists c'. unfold deliver in *. simpl.
    rewrite Hm', Ha', Hm1, Ha1, <- !app_assoc. done.
Qed.

Lemma typed_initial_state : typed_state initial_state = true.
Proof. reflexivity. Qed.

(** ** Step statuses *)

(** C1: the scenario of the specification run on the component.  After the
    frame [{current_step: "triage"}] a fresh store shows triage running and
    every other step pending; after the following frame
    [{completed_steps: ["triage"], current_step: "doctor_matching"}] the
    step doctor_matching is running, but triage is still shown running, not
    completed: line 94 tests the [completed_steps] the store held before the
    frame, and line 97 keeps the status the step had. *)
Theorem scenario_triage_still_running :
  statuses <$> (run [WsOpen 0; WsMessage 0 clk0 triage_running] run1 ≫= state_of)
  = Some [JStr "running"; JStr "pending"; JStr "pending";
          JStr "pending"; JStr "pending"; JStr "pending"]
  ∧ statuses <$> (run [WsOpen 0; WsMessage 0 clk0 triage_running;
                       WsMessage 0 clk1 matching_running] run1 ≫= state_of)
    = Some [JStr "running"; JStr "running"; JStr "pending";
            JStr "pending"; JStr "pending"; JStr "pending"].
Proof. split; by vm_compute. Qed.

(** C5: two runs of the component that end with the same [current_step]
    ("doctor_matching") and the same [completed_steps] (none) and show
    different step statuses: the run that went through triage first still
    shows triage running, the other shows it pending. *)
Theorem statuses_depend_on_history :
  let a := run [WsOpen 0; WsMessage 0 clk0 triage_running;
                WsMessage 0 clk1 matching_only] run1 ≫= state_of in
  let b := run [WsOpen 0; WsMessage 0 clk1 matching_only] run1 ≫= state_of in
  (λ st, JS.field st "current_step") <$> a = (λ st, JS.field st "current_step") <$> b
  ∧ (λ st, JS.field st "completed_steps") <$> a
    = (λ st, JS.field st "completed_steps") <$> b
  ∧ statuses <$> a = Some [JStr "running"; JStr "running"; JStr "pending";
                           JStr "pending"; JStr "pending"; JStr "pending"]
  ∧ statuses <$> b = Some [JStr "pending"; JStr "running"; JStr "pending";
                           JStr "pending"; JStr "pending"; JStr "pending"].
Proof. repeat split; by vm_compute. Qed.

(** ** What a frame leaves alone *)

Ltac progress_update_cases H :=
  unfold progress_update, JS.get in H;
  destruct (JS.nullish _); [discriminate H|]; simpl in H;
  repeat match type of H with
         | context [JS.truthy ?v] => destruct (JS.truthy v); simpl in H
         | context [JS.iterate ?v] => destruct (JS.iterate v); simpl in H
         | context [JS.array_map ?f ?v] => destruct (JS.array_map f v); simpl in H
         end;
  try discriminate H; injection H as <-.

Lemma progress_update_elsewhere clk patch st st' k :
  progress_update clk patch st = Ok st' →
  k ∉ ["messages"; "agent_activities"; "workflow_steps"; "current_agent"] →
  st' !! k = (JS.own_enumerable patch ∪ st) !! k.
Proof.
  intros Hup Hk.
  apply not_elem_of_cons in Hk as [? Hk]. apply not_elem_of_cons in Hk as [? Hk].
  apply not_elem_of_cons in Hk as [? Hk]. apply not_elem_of_cons in Hk as [? _].
  progress_update_cases Hup; by rewrite ?lookup_insert_ne by done.
Qed.

Lemma progress_update_current_agent clk patch st st' :
  progress_update clk patch st = Ok st' →
  st' !! "current_agent" =
    if qualifies patch then Some (JS.prop patch "current_agent")
    else (JS.own_enumerable patch ∪ st) !! "current_agent".
Proof.
  intros Hup. unfold qualifies.
  progress_update_cases Hup;
    by rewrite ?(lookup_insert_ne _ "workflow_steps") by done;
       rewrite ?lookup_insert_eq, ?(lookup_insert_ne _ "messages") by done.
Qed.

Lemma prop_absent v k : JS.own_enumerable v !! k = None → k ≠ "length" → JS.prop v k = JUndef.
Proof.
  intros Hk Hl. unfold JS.prop, JS.field. rewrite Hk.
  by destruct (String.eqb_spec k "length").
Qed.

(** C2: a fresh store is told the current agent by one frame; the next
    frame carries an [agent_activity] and no [current_agent].  The stored
    [current_agent] does not keep its value, it becomes undefined: line 86
    assigns it the frame's [current_agent] although the frame has none
    (line 79, two lines above, falls back to the fragment's agent in that
    very case). *)
Theorem agent_activity_clears_current_agent :
  JS.own_enumerable activity_only_patch !! "current_agent" = None
  ∧ (λ st, JS.field st "current_agent")
      <$> (run [WsOpen 0; WsMessage 0 clk0 agent_announced] run1 ≫= state_of)
    = Some (JStr "CaseTriageAgent")
  ∧ (λ st, JS.field st "current_agent")
      <$> (run [WsOpen 0; WsMessage 0 clk0 agent_announced;
                WsMessage 0 clk1 activity_only] run1 ≫= state_of)
    = Some JUndef.
Proof. repeat split; by vm_compute. Qed.

(** On a store of the data model and a patch of the schema, a
    [session_update] leaves every field the patch does not carry at its
    prior value; a [progress_update] returns a store in which every such
    field other than [messages], [agent_activities], [workflow_steps] and
    [current_agent] has its prior value, and in which [current_agent], when
    the patch does not carry it, is undefined if the patch carries an
    [agent_activity] and has its prior value otherwise. *)
Theorem absent_fields_retained clk patch st :
  typed_state st = true →
  schema_patch patch = true →
  (∀ k, JS.own_enumerable patch !! k = None → session_update patch st !! k = st !! k)
  ∧ ∃ st', progress_update clk patch st = Ok st'
      ∧ (∀ k, JS.own_enumerable patch !! k = None →
              k ∉ ["messages"; "agent_activities"; "workflow_steps"; "current_agent"] →
              st' !! k = st !! k)
      ∧ (JS.own_enumerable patch !! "current_agent" = None →
           st' !! "current_agent" =
             if JS.truthy (JS.prop patch "agent_activity") then Some JUndef
             else st !! "current_agent").
Proof.
  intros Hst Hp. split.
  - intros k Hk. unfold session_update. by rewrite lookup_union_r.
  - destruct (progress_update_schema clk patch st Hst Hp) as (st' & Hup & _).
    exists st'. split; [done|]. split.
    + intros k Hk Hn. rewrite (progress_update_elsewhere _ _ _ _ _ Hup Hn).
      by rewrite lookup_union_r.
    + intros Hk. rewrite (progress_update_current_agent _ _ _ _ Hup).
      unfold qualifies, JS.or. rewrite (prop_absent _ _ Hk) by done. simpl.
      destruct (JS.truthy _); [done|]. by rewrite lookup_union_r.
Qed.

Lemma absent_fields_retained_witness :
  typed_state agent_state = true
  ∧ schema_patch activity_only_patch = true
  ∧ ∃ st', progress_update clk0 activity_only_patch agent_state = Ok st'
      ∧ st' !! "status" = agent_state !! "status"
      ∧ st' !! "current_agent" = Some JUndef.
Proof.
  split; [reflexivity|]. split; [reflexivity|].
  destruct (absent_fields_retained clk0 activity_only_patch agent_state)
    as (_ & st' & Hup & Hkeep & Hagent); [reflexivity..|].
  exists st'. split; [exact Hup|]. split.
  - apply Hkeep; [reflexivity|not_listed].
  - apply Hagent. reflexivity.
Defined.

(** ** The two logs *)

Lemma stamped_message_prop clk msg k :
  JS.prop (stamped_message clk msg) k =
    if String.eqb k "timestamp" then JStr (message_time clk)
    else JS.field (JS.own_enumerable msg) k.
Proof.
  unfold stamped_message. rewrite prop_object.
  destruct (String.eqb_spec k "timestamp") as [->|Hk].
  - apply field_insert_eq.
  - by apply field_insert_ne.
Qed.

Lemma length_activity_entries fs :
  length (flat_map activity_entries fs) = length (List.filter qualifying fs).
Proof.
  induction fs as [|f fs IH]; [done|]. simpl. rewrite length_app, IH.
  unfold activity_entries, qualifying, new_activities.
  destruct (classify f.2); try done. by destruct (qualifies patch).
Qed.










(** ** The connection *)

Lemma update_connections f w : same_connections w (update f w).
Proof. unfold update. by destruct w as [[c| |] ? ? ? ? ? ?]. Qed.

Lemma setWorkflowState_connections f w : same_connections w (setWorkflowState f w).
Proof.
  unfold setWorkflowState. destruct w as [[c| |] ? ? ? ? ? ?]; simpl; try done.
  by destruct (f _).
Qed.

Lemma same_connections_trans w1 w2 w3 :
  same_connections w1 w2 → same_connections w2 w3 → same_connections w1 w3.
Proof. intros (? & ? & ?) (? & ? & ?). repeat split; congruence. Qed.

Lemma send_connections frame w : same_connections w (send frame w).
Proof. unfold send. by repeat case_match. Qed.

Lemma onopen_connections w : same_connections w (onopen w).
Proof.
  unfold onopen, setConnectionError, setIsConnected.
  eauto using same_connections_trans, update_connections, send_connections.
Qed.

Lemma onmessage_connections clk p w : same_connections w (onmessage clk p w).
Proof.
  rewrite onmessage_classify.
  destruct (classify p); try apply setWorkflowState_connections; done.
Qed.

Lemma onclose_connections w : same_connections w (onclose w).
Proof. apply update_connections. Qed.

Lemma onerror_connections w : same_connections w (onerror w).
Proof.
  unfold onerror, setConnectionError, setIsConnected.
  eapply same_connections_trans; [|apply update_connections].
  eapply same_connections_trans; [|apply update_connections]. done.
Qed.

(** The handlers of the connection leave the store alone. *)
Lemma state_of_setIsConnected b w : state_of (setIsConnected b w) = state_of w.
Proof. by destruct w as [[c| |] ? ? ? ? ? ?]. Qed.

Lemma state_of_setConnectionError e w : state_of (setConnectionError e w) = state_of w.
Proof. by destruct w as [[c| |] ? ? ? ? ? ?]. Qed.

Lemma state_of_onclose w : state_of (onclose w) = state_of w.
Proof. apply state_of_setIsConnected. Qed.

Lemma state_of_onerror w : state_of (onerror w) = state_of w.
Proof.
  unfold onerror. by rewrite state_of_setIsConnected, state_of_setConnectionError.
Qed.

Lemma ready_of_set_ready h h' r w :
  ready_of h' (set_ready h r w) =
    if decide (h = h') then (λ _, r) <$> ready_of h' w else ready_of h' w.
Proof.
  unfold ready_of, set_ready. destruct w; simpl. rewrite list_lookup_alter.
  case_decide; [subst|done]. by destruct (_ !! _).
Qed.

Lemma quiescent_set_ready h r w :
  quiescent w → live r = false → quiescent (set_ready h r w).
Proof.
  intros Hq Hr h' s. unfold set_ready. destruct w; simpl in *.
  rewrite list_lookup_alter. case_decide; [subst|by apply Hq].
  destruct (_ !! h') as [s'|] eqn:Hs; [|done]. by intros [= <-].
Qed.

Lemma quiescent_same w w' : same_connections w w' → quiescent w → quiescent w'.
Proof. intros (Hs & _) Hq h s. rewrite Hs. apply Hq. Qed.

Lemma quiescent_ready h w r :
  quiescent w → ready_of h w = Some r → live r = false.
Proof.
  unfold ready_of. intros Hq. destruct (sockets w !! h) as [s|] eqn:Hs; [|done].
  intros [= <-]. by eapply Hq.
Qed.

(** No frame is merged while no socket is connecting or open. *)
Lemma quiescent_step e w w' :
  quiescent w → socket_event e = true → step e w = Some w' →
  quiescent w' ∧ state_of w' = state_of w.
Proof.
  intros Hq He Hstep. destruct e as [| |h|h clk p|h failed]; try discriminate; simpl in Hstep.
  - destruct (ready_of h w) as [r|] eqn:Hr; [|done].
    pose proof (quiescent_ready _ _ _ Hq Hr) as Hl. by destruct r.
  - destruct (ready_of h w) as [r|] eqn:Hr; [|done].
    pose proof (quiescent_ready _ _ _ Hq Hr) as Hl. by destruct r.
  - destruct (ready_of h w) as [r|] eqn:Hr; [|done].
    assert (w' = onclose (if failed then onerror (set_ready h CLOSED w)
                          else set_ready h CLOSED w)) as -> by (by destruct r; simplify_eq).
    assert (quiescent (set_ready h CLOSED w)) as Hq' by (by apply quiescent_set_ready).
    split.
    + eapply quiescent_same; [apply onclose_connections|].
      destruct failed; [|done]. eapply quiescent_same; [apply onerror_connections|done].
    + rewrite state_of_onclose. destruct failed; [rewrite state_of_onerror|];
        by destruct w.
Qed.

Lemma quiescent_run es : ∀ w w',
  quiescent w → forallb socket_event es = true → run es w = Some w' →
  quiescent w' ∧ state_of w' = state_of w.
Proof.
  induction es as [|e es IH]; intros w w' Hq Hes Hrun; simpl in *.
  - by simplify_eq.
  - apply andb_prop in Hes as [He Hes].
    destruct (step e w) as [w1|] eqn:Hstep; [|done]. simpl in Hrun.
    destruct (quiescent_step e w w1 Hq He Hstep) as [Hq1 Hst1].
    destruct (IH w1 w' Hq1 Hes Hrun) as [Hq' Hst']. split; [done|congruence].
Qed.

(** ** Invariants of the connection *)

Lemma update_visibility f w :
  (∀ c, isVisible (f c) = isVisible c) → keeps_visibility w (update f w).
Proof.
  intros Hf c'. unfold update. destruct w as [[c| |] ? ? ? ? ? ?]; simpl; try done.
  intros [= <-]. eauto.
Qed.

Lemma setWorkflowState_visibility f w : keeps_visibility w (setWorkflowState f w).
Proof.
  intros c'. unfold setWorkflowState. destruct w as [[c| |] ? ? ? ? ? ?]; simpl; try done.
  destruct (f _); simpl; [|done]. intros [= <-]. eauto.
Qed.

Lemma keeps_visibility_trans w1 w2 w3 :
  keeps_visibility w1 w2 → keeps_visibility w2 w3 → keeps_visibility w1 w3.
Proof.
  intros H12 H23 c3 Hc3. destruct (H23 c3 Hc3) as (c2 & Hc2 & ->).
  destruct (H12 c2 Hc2) as (c1 & Hc1 & ->). eauto.
Qed.

Lemma keeps_visibility_ui w w' : ui w' = ui w → keeps_visibility w w'.
Proof. intros Hui c' Hc'. exists c'. by rewrite <- Hui. Qed.

Lemma onopen_visibility w : keeps_visibility w (onopen w).
Proof.
  unfold onopen, setConnectionError, setIsConnected.
  eapply keeps_visibility_trans;
    [|apply keeps_visibility_ui; unfold send; by repeat case_match].
  eapply keeps_visibility_trans; [|by apply update_visibility].
  by apply update_visibility.
Qed.

Lemma onmessage_visibility clk p w : keeps_visibility w (onmessage clk p w).
Proof.
  rewrite onmessage_classify.
  destruct (classify p); try apply setWorkflowState_visibility;
    by apply keeps_visibility_ui.
Qed.

Lemma onclose_visibility w : keeps_visibility w (onclose w).
Proof. by apply update_visibility. Qed.

Lemma onerror_visibility w : keeps_visibility w (onerror w).
Proof.
  unfold onerror, setConnectionError, setIsConnected.
  eapply keeps_visibility_trans; [|apply update_visibility; done].
  eapply keeps_visibility_trans; [|apply update_visibility; done].
  by apply keeps_visibility_ui.
Qed.

Lemma owned_same w w' : same_connections w w' → owned w → owned w'.
Proof. intros (Hs & Hr & Hc) Ho h s. rewrite Hs, Hr, Hc. apply Ho. Qed.

Lemma cleanup_visible_same w w' :
  same_connections w w' → keeps_visibility w w' →
  cleanup_visible w → cleanup_visible w'.
Proof.
  intros (_ & _ & Hc) Hv Hcv c' Hc' Hcl. destruct (Hv c' Hc') as (c & Hui & ->).
  apply Hcv; [done|congruence].
Qed.

Lemma quiescent_owned w : quiescent w → owned w.
Proof. intros Hq h s Hs Hl. by rewrite (Hq h s Hs) in Hl. Qed.

(** After the cleanup function has run no socket is connecting or open. *)
Lemma quiescent_run_cleanup w : owned w → quiescent (run_cleanup w).
Proof.
  intros Ho. unfold run_cleanup.
  destruct (cleanup w) eqn:Hcl.
  - destruct (websocket w) as [h|] eqn:Hr.
    + intros h' s'. unfold close.
      destruct (ready_of h w) as [r|] eqn:Hready.
      * destruct w as [u r0 cl ss sn cc er]; simpl in *.
        unfold ready_of in Hready. simpl in Hready.
        destruct (ss !! h) as [s|] eqn:Hs; [|done]. injection Hready as <-.
        destruct (decide (h' = h)) as [->|Hne].
        -- destruct (ready s) eqn:Hrs; simpl; rewrite ?list_lookup_alter_eq, ?Hs;
             simpl; intros [= <-]; simpl; rewrite ?Hrs; done.
        -- assert (ss !! h' = Some s' → live (ready s') = false) as Hold.
           { intros Hs'. destruct (live (ready s')) eqn:Hl; [|done].
             destruct (Ho h' s' Hs' Hl) as [Hr' _]. simpl in Hr'. congruence. }
           destruct (ready s); simpl; rewrite ?list_lookup_alter_ne by done; done.
      * unfold ready_of in Hready. destruct w as [u r0 cl ss sn cc er]; simpl in *.
        intros Hs'. destruct (live (ready s')) eqn:Hl; [|done].
        destruct (Ho h' s' Hs' Hl) as [Hr' _]. simpl in Hr'.
        assert (h' = h) as -> by congruence. by rewrite Hs' in Hready.
    + intros h' s' Hs'. destruct (live (ready s')) eqn:Hl; [|done].
      destruct (Ho h' s' Hs' Hl). congruence.
  - intros h' s' Hs'. destruct (live (ready s')) eqn:Hl; [|done].
    destruct (Ho h' s' Hs' Hl). congruence.
Qed.

Lemma ui_run_cleanup w : ui (run_cleanup w) = ui w.
Proof.
  unfold run_cleanup, close. destruct w as [u r cl ss sn cc er]; simpl.
  by repeat case_match.
Qed.

Lemma run_effect_quiescent accepted w c :
  ui w = Mounted c → quiescent w →
  owned (run_effect accepted w)
  ∧ cleanup_visible (run_effect accepted w)
  ∧ state_of (run_effect accepted w) = state_of w
  ∧ (isVisible c = false → quiescent (run_effect accepted w)).
Proof.
  intros Hui Hq. unfold run_effect. rewrite Hui.
  destruct (negb (JS.truthy (sessionId c)) || negb (isVisible c)) eqn:Hguard.
  - destruct w as [u r cl ss sn cc er]; simpl in *.
    split; [by apply quiescent_owned|]. split; [by intros c' _ [=]|]. done.
  - apply orb_false_elim in Hguard as [_ Hvis%negb_false_iff].
    unfold connectWebSocket.
    destruct w as [u r cl ss sn cc er]; simpl in *. subst u.
    destruct (JS.ToString (sessionId c)) as [id|], accepted; simpl.
    2-4: split; [by apply quiescent_owned|];
         split; [by intros c' [= <-]|]; split; [done|congruence].
    split; [|split; [by intros c' [= <-]|split; [done|congruence]]].
    intros h s Hs Hl. simpl in *.
    destruct (decide (h < length ss)) as [Hlt|Hge].
    + rewrite lookup_app_l in Hs by done. by rewrite (Hq h s Hs) in Hl.
    + apply lookup_lt_Some in Hs as Hlen. rewrite length_app in Hlen. simpl in Hlen.
      split; [f_equal; lia|done].
Qed.

(** The two invariants hold along every run of the component. *)
Lemma invariant_mount sid vis accepted :
  owned (mount sid vis accepted) ∧ cleanup_visible (mount sid vis accepted).
Proof.
  unfold mount.
  destruct (run_effect_quiescent accepted
              (World (Mounted (initial_component sid vis)) None false [] [] [] [])
              (initial_component sid vis)) as (Ho & Hcv & _); [done| |done].
  by intros h s.
Qed.

Lemma invariant_step e w w' :
  owned w → cleanup_visible w → step e w = Some w' →
  owned w' ∧ cleanup_visible w'.
Proof.
  intros Ho Hcv Hstep. destruct e as [sid vis accepted| |h|h clk p|h failed]; simpl in Hstep.
  - destruct (ui w) as [c| |] eqn:Hui; try done.
    destruct (JS.strict_eq _ _ && bool_decide _) eqn:Hdeps; injection Hstep as <-.
    + apply andb_prop in Hdeps as [_ Hvis%bool_decide_eq_true].
      split.
      * eapply owned_same; [apply update_connections|done].
      * intros c'. unfold set_props, update. rewrite Hui.
        destruct w; simpl in *. intros [= <-] Hcl. simpl. rewrite <- Hvis. by eapply Hcv.
    + pose proof (quiescent_run_cleanup w Ho) as Hq.
      assert (quiescent (set_props sid vis (run_cleanup w))) as Hq'.
      { eapply quiescent_same; [apply update_connections|done]. }
      edestruct (run_effect_quiescent accepted (set_props sid vis (run_cleanup w)))
        as (? & ? & _); [|done|done].
      unfold set_props, update. rewrite ui_run_cleanup, Hui. by destruct (run_cleanup w).
  - destruct (ui w) as [c| |] eqn:Hui; try done. injection Hstep as <-.
    pose proof (quiescent_run_cleanup w Ho) as Hq. split.
    + apply quiescent_owned. by destruct (run_cleanup w).
    + intros c'. by destruct (run_cleanup w).
  - destruct (ready_of h w) as [[]|] eqn:Hr; try done. injection Hstep as <-.
    assert (owned (set_ready h OPEN w) ∧ cleanup_visible (set_ready h OPEN w)) as [Ho' Hcv'].
    { unfold ready_of in Hr. destruct w as [u r cl ss sn cc er]; simpl in *. split; [|done].
      intros h' s'. simpl. rewrite list_lookup_alter. case_decide; [subst h'|by apply Ho].
      destruct (ss !! h) as [s|] eqn:Hs; [|done]. intros _ _. apply (Ho h s Hs).
      simpl in Hr. by injection Hr as ->. }
    split.
    + eapply owned_same; [apply onopen_connections|done].
    + eapply cleanup_visible_same; [apply onopen_connections|apply onopen_visibility|done].
  - destruct (ready_of h w) as [[]|] eqn:Hr; try done. injection Hstep as <-. split.
    + eapply owned_same; [apply onmessage_connections|done].
    + eapply cleanup_visible_same;
        [apply onmessage_connections|apply onmessage_visibility|done].
  - destruct (ready_of h w) as [r|] eqn:Hr; [|done].
    assert (w' = onclose (if failed then onerror (set_ready h CLOSED w)
                          else set_ready h CLOSED w)) as -> by (by destruct r; simplify_eq).
    assert (owned (set_ready h CLOSED w) ∧ cleanup_visible (set_ready h CLOSED w))
      as [Ho' Hcv'].
    { destruct w as [u r0 cl ss sn cc er]; simpl in *. split; [|done].
      intros h' s'. simpl. rewrite list_lookup_alter. case_decide; [subst h'|by apply Ho].
      destruct (ss !! h) as [s|] eqn:Hs; [|done]. by intros [= <-]. }
    split.
    + eapply owned_same; [apply onclose_connections|].
      destruct failed; [|done]. eapply owned_same; [apply onerror_connections|done].
    + eapply cleanup_visible_same; [apply onclose_connections|apply onclose_visibility|].
      destruct failed; [|done].
      eapply cleanup_visible_same; [apply onerror_connections|apply onerror_visibility|done].
Qed.

Lemma reachable_invariant w : reachable w → owned w ∧ cleanup_visible w.
Proof.
  induction 1 as [sid vis accepted|e w w' _ [Ho Hcv] Hstep].
  - apply invariant_mount.
  - by eapply invariant_step.
Qed.

(** ** Hiding the view *)

Lemma render_hidden sid accepted w c :
  owned w → cleanup_visible w → ui w = Mounted c →
  ∃ w', step (Render sid false accepted) w = Some w'
        ∧ state_of w' = state_of w
        ∧ quiescent w'
        ∧ (∀ h s, sockets w !! h = Some s → live (ready s) = true →
                  h ∈ close_calls w').
Proof.
  intros Ho Hcv Hui. simpl. rewrite Hui.
  destruct (JS.strict_eq _ _ && bool_decide _) eqn:Hdeps.
  - apply andb_prop in Hdeps as [_ Hvis%bool_decide_eq_true].
    assert (quiescent w) as Hq.
    { intros h s Hs. destruct (live (ready s)) eqn:Hl; [|done].
      destruct (Ho h s Hs Hl) as [_ Hcl]. rewrite (Hcv c Hui Hcl) in Hvis. done. }
    eexists. split; [done|]. split; [|split].
    + unfold set_props, update, state_of. rewrite Hui. by destruct w.
    + eapply quiescent_same; [apply update_connections|done].
    + intros h s Hs Hl. by rewrite (Hq h s Hs) in Hl.
  - pose proof (quiescent_run_cleanup w Ho) as Hq.
    pose proof (ui_run_cleanup w) as Hui'. rewrite Hui in Hui'.
    eexists. split; [done|].
    unfold run_effect, set_props, update. rewrite Hui'.
    assert (∀ h s, sockets w !! h = Some s → live (ready s) = true →
                   h ∈ close_calls (run_cleanup w)) as Hclose.
    { intros h s Hs Hl. destruct (Ho h s Hs Hl) as [Hr Hcl].
      unfold run_cleanup, close. rewrite Hcl, Hr.
      destruct w; simpl. case_match; [case_match|]; simpl;
        apply elem_of_app; right; by apply list_elem_of_singleton. }
    destruct (run_cleanup w) as [u r cl ss sn cc er]; simpl in *.
    rewrite orb_true_r. simpl. split; [|split; [done|done]].
    unfold state_of. simpl. subst u. by rewrite Hui.
Qed.

Lemma unmount_discards w c :
  owned w → ui w = Mounted c →
  ∃ w', step Unmount w = Some w'
        ∧ state_of w' = None
        ∧ quiescent w'
        ∧ (∀ h s, sockets w !! h = Some s → live (ready s) = true →
                  h ∈ close_calls w').
Proof.
  intros Ho Hui. simpl. rewrite Hui. eexists. split; [done|].
  pose proof (quiescent_run_cleanup w Ho) as Hq.
  assert (∀ h s, sockets w !! h = Some s → live (ready s) = true →
                 h ∈ close_calls (run_cleanup w)) as Hclose.
  { intros h s Hs Hl. destruct (Ho h s Hs Hl) as [Hr Hcl].
    unfold run_cleanup, close. rewrite Hcl, Hr.
    destruct w; simpl. case_match; [case_match|]; simpl;
      apply elem_of_app; right; by apply list_elem_of_singleton. }
  by destruct (run_cleanup w).
Qed.

(** C9 (counterexample): a message is merged, then the view is hidden, then
    shown again for another run id.  The store is neither discarded nor
    reset: the message log still holds its entry, whereas a fresh store
    holds none. *)
Lemma store_survives_hiding :
  (λ st, length (log "messages" st))
    <$> (run [WsOpen 0; WsMessage 0 clk0 critical;
              Render (JStr "run-1") false true] run1 ≫= state_of) = Some 1
  ∧ (λ st, length (log "messages" st))
      <$> (run [WsOpen 0; WsMessage 0 clk0 critical;
                Render (JStr "run-1") false true;
                Render (JStr "run-2") true true] run1 ≫= state_of) = Some 1
  ∧ length (log "messages" initial_state) = 0.
Proof. repeat split; by vm_compute. Qed.

(** C9 (amended): along every run of the component, hiding the view calls
    [close()] on the connection that is connecting or open and leaves no
    socket connecting or open, so that no event of a socket changes the
    store while the view stays hidden; the store itself is kept, not
    discarded; unmounting the component closes the connection the same way
    and discards the store.  A freshly mounted store is at its defaults: six
    steps all pending, status idle, both logs empty, progress 0. *)
Theorem teardown_closes_and_mount_is_fresh :
  (∀ w c sid accepted,
     reachable w → ui w = Mounted c →
     ∃ w', step (Render sid false accepted) w = Some w'
           ∧ state_of w' = Some (workflowState c)
           ∧ quiescent w'
           ∧ (∀ h s, sockets w !! h = Some s → live (ready s) = true →
                     h ∈ close_calls w')
           ∧ ∀ es w'', forallb socket_event es = true → run es w' = Some w'' →
                       state_of w'' = Some (workflowState c))
  ∧ (∀ w c,
       reachable w → ui w = Mounted c →
       ∃ w', step Unmount w = Some w'
             ∧ state_of w' = None
             ∧ quiescent w'
             ∧ (∀ h s, sockets w !! h = Some s → live (ready s) = true →
                       h ∈ close_calls w'))
  ∧ (∀ sid vis accepted,
       state_of (mount sid vis accepted) = Some initial_state)
  ∧ statuses initial_state = pending6
  ∧ JS.field initial_state "status" = JStr "idle"
  ∧ log "messages" initial_state = []
  ∧ log "agent_activities" initial_state = []
  ∧ JS.field initial_state "progress_percentage" = JNum 0.
Proof.
  split; [|split; [|split]].
  - intros w c sid accepted [Ho Hcv]%reachable_invariant Hui.
    destruct (render_hidden sid accepted w c Ho Hcv Hui) as (w' & Hstep & Hst & Hq & Hcl).
    assert (state_of w = Some (workflowState c)) as Hw
      by (unfold state_of; by rewrite Hui).
    exists w'. rewrite Hst. repeat (split; [done|]).
    intros es w'' Hes Hrun.
    destruct (quiescent_run es w' w'' Hq Hes Hrun) as [_ ->]. congruence.
  - intros w c [Ho _]%reachable_invariant Hui. by apply (unmount_discards w c).
  - intros sid vis accepted.
    destruct (run_effect_quiescent accepted
                (World (Mounted (initial_component sid vis)) None false [] [] [] [])
                (initial_component sid vis)) as (_ & _ & Hst & _); [done| |done].
    by intros h s.
  - repeat split; by vm_compute.
Qed.

Lemma teardown_closes_and_mount_is_fresh_witness :
  reachable run1
  ∧ ui run1 = Mounted (initial_component (JStr "run-1") true)
  ∧ ∃ w', step (Render (JStr "run-1") false true) run1 = Some w'
          ∧ state_of w' = Some initial_state
          ∧ 0 ∈ close_calls w'.
Proof.
  split; [apply reachable_mount|]. split; [reflexivity|].
  destruct teardown_closes_and_mount_is_fresh as (Hhide & _).
  destruct (Hhide run1 (initial_component (JStr "run-1") true) (JStr "run-1") true)
    as (w' & Hstep & Hst & _ & Hclose & _); [apply reachable_mount|reflexivity|].
  exists w'. split; [exact Hstep|]. split; [exact Hst|].
  apply (Hclose 0 (Socket "ws://localhost:8000/ws/run-1" CONNECTING)); reflexivity.
Defined.

(** ** Opening and losing the connection *)

Lemma socket_event_sockets e w w' :
  socket_event e = true → step e w = Some w' →
  length (sockets w') = length (sockets w) ∧ websocket w' = websocket w.
Proof.
  intros He Hstep.
  assert (∀ h r, length (sockets (set_ready h r w)) = length (sockets w)
                 ∧ websocket (set_ready h r w) = websocket w) as Hset.
  { intros h r. destruct w; simpl. by rewrite length_alter. }
  destruct e as [| |h|h clk p|h failed]; try discriminate; simpl in Hstep.
  - destruct (ready_of h w) as [[]|]; try done. injection Hstep as <-.
    destruct (onopen_connections (set_ready h OPEN w)) as (-> & -> & _). apply Hset.
  - destruct (ready_of h w) as [[]|]; try done. injection Hstep as <-.
    by destruct (onmessage_connections clk p w) as (-> & -> & _).
  - destruct (ready_of h w) as [r|]; [|done].
    assert (w' = onclose (if failed then onerror (set_ready h CLOSED w)
                          else set_ready h CLOSED w)) as -> by (by destruct r; simplify_eq).
    destruct (onclose_connections (if failed then onerror (set_ready h CLOSED w)
                                   else set_ready h CLOSED w)) as (-> & -> & _).
    destruct failed; [|apply Hset].
    destruct (onerror_connections (set_ready h CLOSED w)) as (-> & -> & _). apply Hset.
Qed.

Lemma socket_events_sockets es : ∀ w w',
  forallb socket_event es = true → run es w = Some w' →
  length (sockets w') = length (sockets w) ∧ websocket w' = websocket w.
Proof.
  induction es as [|e es IH]; intros w w' Hes Hrun; simpl in *.
  - by simplify_eq.
  - apply andb_prop in Hes as [He Hes].
    destruct (step e w) as [w1|] eqn:Hstep; [|done]. simpl in Hrun.
    destruct (socket_event_sockets e w w1 He Hstep) as [<- <-]. by apply IH.
Qed.

Lemma open_sends_get_status w h :
  websocket w = Some h → ready_of h w = Some CONNECTING →
  ∃ w', step (WsOpen h) w = Some w'
        ∧ sent w' = sent w ++ [(h, get_status)]
        ∧ ready_of h w' = Some OPEN
        ∧ (∀ c, ui w = Mounted c →
                ∃ c', ui w' = Mounted c' ∧ isConnected c' = true
                      ∧ connectionError c' = JNull
                      ∧ workflowState c' = workflowState c).
Proof.
  intros Hr Hready. simpl. rewrite Hready. eexists. split; [done|].
  unfold onopen, send, setConnectionError, setIsConnected, update.
  unfold ready_of in *.
  destruct w as [u r cl ss sn cc er]; simpl in *. subst r.
  destruct (ss !! h) as [s|] eqn:Hs; [|done].
  destruct u as [c| |]; simpl; rewrite list_lookup_alter_eq, Hs; simpl.
  all: split; [done|]; split; [by rewrite list_lookup_alter_eq, Hs|].
  all: intros c0 [=]; subst; by eexists.
Qed.

Lemma connection_lost w h c r failed :
  ui w = Mounted c → ready_of h w = Some r → r ≠ CLOSED →
  ∃ w' c', step (WsClosed h failed) w = Some w'
           ∧ ui w' = Mounted c'
           ∧ isConnected c' = false
           ∧ connectionError c'
             = (if failed then JStr "Connection failed" else connectionError c)
           ∧ workflowState c' = workflowState c
           ∧ sent w' = sent w.
Proof.
  intros Hui Hready Hr. simpl. rewrite Hready.
  exists (onclose (if failed then onerror (set_ready h CLOSED w)
                   else set_ready h CLOSED w)).
  destruct w as [u r0 cl ss sn cc er]; simpl in *. subst u.
  destruct failed; eexists; (split; [by destruct r|]); by simpl.
Qed.

(** C7 (counterexample): the connection opens and is then closed without a
    transport error (by the server, or before opening); the component is
    disconnected and holds no connectivity reason. *)
Lemma close_surfaces_no_reason :
  run [WsOpen 0; WsClosed 0 false] run1 ≫= connection_of = Some (false, JNull)
  ∧ run [WsClosed 0 false] run1 ≫= connection_of = Some (false, JNull).
Proof. split; by vm_compute. Qed.

(** C7 (amended): the effect opens nothing when the run id is missing or
    the view is hidden; when a socket opens, exactly one [get_status] frame
    is sent on it at once; when a socket is closed the component becomes
    disconnected, with the reason "Connection failed" if the transport
    failed and with its connectivity reason left as it was otherwise (none
    after a successful open); and no event of a socket ever constructs a
    socket or moves the ref: the component does not reconnect by itself. *)
Theorem connection_lifecycle :
  (∀ w c accepted,
     ui w = Mounted c →
     JS.truthy (sessionId c) = false ∨ isVisible c = false →
     run_effect accepted w = set_cleanup false w)
  ∧ (∀ sid vis accepted,
       JS.truthy sid = false ∨ vis = false →
       sockets (mount sid vis accepted) = [] ∧ sent (mount sid vis accepted) = [])
  ∧ (∀ w h,
       reachable w → ready_of h w = Some CONNECTING →
       ∃ w', step (WsOpen h) w = Some w' ∧ sent w' = sent w ++ [(h, get_status)])
  ∧ (∀ w h c r failed,
       ui w = Mounted c → ready_of h w = Some r → r ≠ CLOSED →
       ∃ w' c', step (WsClosed h failed) w = Some w'
                ∧ ui w' = Mounted c'
                ∧ isConnected c' = false
                ∧ connectionError c'
                  = (if failed then JStr "Connection failed" else connectionError c)
                ∧ sent w' = sent w)
  ∧ (∀ es w w',
       forallb socket_event es = true → run es w = Some w' →
       length (sockets w') = length (sockets w) ∧ websocket w' = websocket w).
Proof.
  assert (∀ w c accepted,
            ui w = Mounted c →
            JS.truthy (sessionId c) = false ∨ isVisible c = false →
            run_effect accepted w = set_cleanup false w) as Hguard.
  { intros w c accepted Hui Hno. unfold run_effect. rewrite Hui.
    by destruct Hno as [-> | ->]; rewrite ?orb_true_r. }
  split; [done|]. split; [|split; [|split]].
  - intros sid vis accepted Hno. unfold mount.
    by rewrite (Hguard _ (initial_component sid vis)).
  - intros w h [Ho _]%reachable_invariant Hready.
    assert (websocket w = Some h) as Hr.
    { unfold ready_of in Hready. destruct (sockets w !! h) as [s|] eqn:Hs; [|done].
      apply (Ho h s Hs). simpl in Hready. by injection Hready as ->. }
    destruct (open_sends_get_status w h Hr Hready) as (w' & Hstep & Hsent & _).
    by exists w'.
  - intros w h c r failed Hui Hready Hr.
    destruct (connection_lost w h c r failed Hui Hready Hr)
      as (w' & c' & ? & ? & ? & ? & _ & ?).
    by exists w', c'.
  - apply socket_events_sockets.
Qed.

Lemma connection_lifecycle_witness :
  reachable run1
  ∧ ready_of 0 run1 = Some CONNECTING
  ∧ ∃ w', step (WsOpen 0) run1 = Some w' ∧ sent w' = [(0, get_status)].
Proof.
  split; [apply reachable_mount|]. split; [reflexivity|].
  destruct connection_lifecycle as (_ & _ & Hopen & _).
  destruct (Hopen run1 0) as (w' & Hstep & Hsent); [apply reachable_mount|reflexivity|].
  exists w'. split; [exact Hstep|exact Hsent].
Defined.

(** ** Frames that are not merged *)

Lemma strict_eq_string v s : v ≠ JStr s → JS.strict_eq v (JStr s) = false.
Proof.
  destruct v; simpl; try done. intros Hne.
  destruct (String.eqb_spec s0 s); [by subst|done].
Qed.

(** C6 (counterexample): a payload that parses to an object without a
    [type] is dropped, but nothing is logged: the world after [onmessage]
    is the world before, its list of diagnostics included. *)
Lemma payload_without_type_not_logged :
  classify untyped = Ignored
  ∧ onmessage clk0 untyped run1 = run1
  ∧ errors (onmessage clk0 untyped run1) = [].
Proof. repeat split; by vm_compute. Qed.

(** C6 (amended): a parsed payload whose [type] is neither
    "progress_update" nor "session_update" (a missing [type] included) is
    ignored: [onmessage] changes nothing and logs nothing.  A payload that
    does not parse, or parses to [null], is dropped with exactly one
    diagnostic and the component stays as it was.  When the connection
    fails before any frame arrives, whether it had opened or not, the
    component is still mounted, its store is the initial one (status idle)
    and its connectivity reason is the non-empty "Connection failed"; when
    the socket cannot even be constructed the same holds with the reason
    "Failed to establish connection". *)
Theorem unknown_and_malformed_frames :
  (∀ clk data type w,
     JS.get data "type" = Ok type →
     type ≠ JStr "progress_update" → type ≠ JStr "session_update" →
     onmessage clk (Parsed data) w = w)
  ∧ (∀ clk w,
       onmessage clk Unparseable w
       = console_error "Error parsing WebSocket message:" w)
  ∧ (∀ clk data w,
       JS.nullish data = true →
       onmessage clk (Parsed data) w
       = console_error "Error parsing WebSocket message:" w)
  ∧ (∀ msg w,
       ui (console_error msg w) = ui w ∧ errors (console_error msg w) = errors w ++ [msg])
  ∧ (∀ sid id (opened : bool),
       JS.truthy sid = true → JS.ToString sid = Ok id →
       ∃ w c, run ((if opened then [WsOpen 0] else []) ++ [WsClosed 0 true])
                  (mount sid true true) = Some w
              ∧ ui w = Mounted c
              ∧ workflowState c = initial_state
              ∧ JS.field (workflowState c) "status" = JStr "idle"
              ∧ isConnected c = false
              ∧ connectionError c = JStr "Connection failed"
              ∧ JS.truthy (connectionError c) = true
              ∧ errors w = ["WebSocket error:"])
  ∧ (∀ sid,
       JS.truthy sid = true →
       ∃ c, ui (mount sid true false) = Mounted c
            ∧ workflowState c = initial_state
            ∧ isConnected c = false
            ∧ connectionError c = JStr "Failed to establish connection"
            ∧ sockets (mount sid true false) = []).
Proof.
  split; [|split; [|split; [|split; [|split]]]].
  - intros clk data type w Hty Hp Hs. unfold onmessage.
    by rewrite Hty, !strict_eq_string.
  - done.
  - intros clk data w Hn. unfold onmessage, JS.get. by rewrite Hn.
  - intros msg w. by destruct w.
  - intros sid id opened Hsid Hid. unfold mount, run_effect. simpl.
    rewrite Hsid. simpl. unfold connectWebSocket. rewrite Hid. simpl.
    destruct opened; simpl; by do 2 eexists.
  - intros sid Hsid. unfold mount, run_effect. simpl.
    rewrite Hsid. simpl. unfold connectWebSocket.
    destruct (JS.ToString sid); simpl; by eexists.
Qed.

Lemma unknown_and_malformed_frames_witness :
  JS.get (object [("type", JStr "heartbeat"); ("data", object [("status", JStr "running")])])
         "type" = Ok (JStr "heartbeat")
  ∧ onmessage clk0 heartbeat run1 = run1.
Proof.
  split; [reflexivity|].
  destruct unknown_and_malformed_frames as (Hignored & _).
  apply (Hignored clk0 _ (JStr "heartbeat")); [reflexivity|discriminate|discriminate].
Defined.

(** ** The step list under frames *)

Lemma with_status_kept step s :
  s = "running" ∨ s = "completed" →
  JS.nullish step = false →
  step_kept step (with_status step s) ∧ JS.nullish (with_status step s) = false.
Proof.
  intros Hs Hstep. unfold step_kept, with_status. simpl. rewrite delete_insert_eq.
  rewrite prop_object, field_insert_eq. split; [|done]. split; [done|].
  destruct Hs as [-> | ->]; auto.
Qed.

Lemma step_kept_refl step : step_kept step step.
Proof. split; auto. Qed.

Lemma step_kept_trans step1 step2 step3 :
  step_kept step1 step2 → step_kept step2 step3 → step_kept step1 step3.
Proof.
  intros [Hf12 Hs12] [Hf23 Hs23]. split; [congruence|].
  destruct Hs23 as [?|[?|Hs23]]; auto. rewrite Hs23. done.
Qed.

Lemma update_step_kept cur cs step step' :
  update_step cur cs step = Ok step' → step_kept step step'.
Proof.
  unfold update_step, JS.get. destruct (JS.nullish step) eqn:Hstep; [done|]. simpl.
  destruct (JS.strict_eq _ cur).
  - intros [= <-]. by apply with_status_kept; auto.
  - destruct (JS.includes cs _) as [member|]; [|done]. simpl.
    destruct (JS.truthy member); intros [= <-].
    + by apply with_status_kept; auto.
    + apply step_kept_refl.
Qed.

Lemma map_steps_kept cur cs steps : ∀ steps',
  mapM (update_step cur cs) steps = Ok steps' → Forall2 step_kept steps steps'.
Proof.
  induction steps as [|step steps IH]; intros steps'; simpl.
  - intros [= <-]. constructor.
  - destruct (update_step cur cs step) as [step'|] eqn:Hstep; [|done]. simpl.
    destruct (mapM _ steps) as [rest|]; [|done]. simpl. intros [= <-].
    constructor; [by eapply update_step_kept|by apply IH].
Qed.

Lemma Forall2_step_kept_refl steps : Forall2 step_kept steps steps.
Proof. induction steps; constructor; auto using step_kept_refl. Qed.

Lemma Forall2_step_kept_trans steps1 : ∀ steps2 steps3,
  Forall2 step_kept steps1 steps2 → Forall2 step_kept steps2 steps3 →
  Forall2 step_kept steps1 steps3.
Proof.
  induction steps1 as [|s1 steps1 IH]; intros steps2 steps3 H12 H23;
    inversion H12; subst; inversion H23; subst; constructor;
    eauto using step_kept_trans.
Qed.

(** The step list a [progress_update] leaves, when the patch carries no
    [workflow_steps] of its own. *)
Lemma progress_update_workflow_steps clk patch st st' :
  progress_update clk patch st = Ok st' →
  JS.own_enumerable patch !! "workflow_steps" = None →
  if JS.truthy (JS.prop patch "current_step")
  then ∃ steps', JS.array_map (update_step (JS.prop patch "current_step")
                                 (JS.field st "completed_steps"))
                              (JS.field st "workflow_steps") = Ok steps'
                 ∧ JS.field st' "workflow_steps" = steps'
  else JS.field st' "workflow_steps" = JS.field st "workflow_steps".
Proof.
  intros Hup Habs. unfold progress_update, JS.get in Hup.
  destruct (JS.nullish patch); [done|]. simpl in Hup.
  destruct (JS.truthy (JS.prop patch "current_step")).
  - destruct (JS.array_map _ _) as [steps'|] eqn:Hmap.
    + exists steps'. split; [done|].
      repeat match type of Hup with
             | context [JS.truthy ?v] => destruct (JS.truthy v); simpl in Hup
             | context [JS.iterate ?v] => destruct (JS.iterate v); simpl in Hup
             end; try discriminate Hup; injection Hup as <-;
        apply field_insert_eq.
    + repeat match type of Hup with
             | context [JS.truthy ?v] => destruct (JS.truthy v); simpl in Hup
             | context [JS.iterate ?v] => destruct (JS.iterate v); simpl in Hup
             end; discriminate Hup.
  - repeat match type of Hup with
           | context [JS.truthy ?v] => destruct (JS.truthy v); simpl in Hup
           | context [JS.iterate ?v] => destruct (JS.iterate v); simpl in Hup
           end; try discriminate Hup; injection Hup as <-;
      rewrite ?(field_insert_ne _ "current_agent"),
              ?(field_insert_ne _ "agent_activities"),
              ?(field_insert_ne _ "messages") by done;
      rewrite field_union, Habs; done.
Qed.

Lemma onmessage_steps clk p w c :
  ui w = Mounted c →
  typed_state (workflowState c) = true →
  schema_payload p = true →
  ∃ c', ui (onmessage clk p w) = Mounted c'
        ∧ typed_state (workflowState c') = true
        ∧ Forall2 step_kept (log "workflow_steps" (workflowState c))
                            (log "workflow_steps" (workflowState c')).
Proof.
  intros Hui Hst Hp. rewrite onmessage_classify. unfold schema_payload in Hp.
  destruct (classify p) as [patch|patch| |].
  - destruct (progress_update_schema clk patch _ Hst Hp) as (st' & Hup & Hst' & _).
    unfold setWorkflowState. rewrite Hui, Hup. simpl.
    eexists. split; [done|]. split; [done|]. simpl.
    apply schema_patch_inv in Hp as (m & -> & Habs & _).
    assert (m !! "workflow_steps" = None) as Hw0 by (apply Habs; not_listed).
    pose proof (progress_update_workflow_steps _ _ _ _ Hup Hw0) as Hsteps.
    unfold log. destruct (JS.truthy _).
    + destruct Hsteps as (steps' & Hmap & ->).
      destruct (JS.field (workflowState c) "workflow_steps"); try done.
      simpl in Hmap. destruct (mapM _ l) as [new|] eqn:Hnew; [|done].
      injection Hmap as <-. by eapply map_steps_kept.
    + rewrite Hsteps. apply Forall2_step_kept_refl.
  - destruct (session_update_schema patch _ Hst Hp) as (Hst' & _).
    unfold setWorkflowState. rewrite Hui. simpl.
    eexists. split; [done|]. split; [done|]. simpl.
    apply schema_patch_inv in Hp as (m & -> & Habs & _).
    assert (m !! "workflow_steps" = None) as Hw0 by (apply Habs; not_listed).
    unfold log, session_update. simpl. rewrite field_union, Hw0.
    apply Forall2_step_kept_refl.
  - exists c. auto using Forall2_step_kept_refl.
  - exists c. auto using Forall2_step_kept_refl.
Qed.

Lemma deliver_steps fs : ∀ w c,
  ui w = Mounted c →
  typed_state (workflowState c) = true →
  forallb (λ f, schema_payload f.2) fs = true →
  ∃ c', ui (deliver fs w) = Mounted c'
        ∧ typed_state (workflowState c') = true
        ∧ Forall2 step_kept (log "workflow_steps" (workflowState c))
                            (log "workflow_steps" (workflowState c')).
Proof.
  induction fs as [|[clk p] fs IH]; intros w c Hui Hst Hfs; simpl in *.
  - exists c. auto using Forall2_step_kept_refl.
  - apply andb_prop in Hfs as [Hp Hfs].
    destruct (onmessage_steps clk p w c Hui Hst Hp) as (c1 & Hui1 & Hst1 & H1).
    destruct (IH _ c1 Hui1 Hst1 Hfs) as (c' & Hui' & Hst' & H').
    exists c'. eauto using Forall2_step_kept_trans.
Qed.



Lemma step_kept_own_status step step' :
  step_kept step step' → own_status step → own_status step'.
Proof.
  intros [_ [Hs|[Hs|Hs]]] Hown; unfold own_status; rewrite Hs; auto.
Qed.

Lemma own_status_icon step :
  JS.nullish step = false → own_status step →
  ∃ icon, View.getStepIcon step = Ok icon
          ∧ icon.1 ∈ ["step-icon pending"; "step-icon running"; "step-icon completed"].
Proof.
  intros Hstep Hown. unfold View.getStepIcon, JS.get. rewrite Hstep. simpl.
  eexists. split; [done|].
  destruct Hown as [-> |[-> | ->]]; simpl; set_solver.
Qed.

Lemma Forall2_step_kept_own_status steps steps' :
  Forall2 step_kept steps steps' → Forall own_status steps → Forall own_status steps'.
Proof.
  induction 1 as [|step step' steps steps' Hk _ IH]; [constructor|].
  inversion 1; subst. constructor; eauto using step_kept_own_status.
Qed.





(** ** The active step *)

Lemma strict_eq_sym a b : JS.strict_eq a b = JS.strict_eq b a.
Proof.
  destruct a, b; simpl; try done.
  - apply bool_decide_ext. naive_solver.
  - apply bool_decide_ext. naive_solver.
  - apply String.eqb_sym.
Qed.

Lemma strict_eq_true a b : JS.strict_eq a b = true → a = b.
Proof.
  destruct a, b; simpl; try done.
  - by intros ->%bool_decide_eq_true.
  - by intros ->%bool_decide_eq_true.
  - by intros ->%String.eqb_eq.
Qed.

Lemma with_status_id step s : JS.prop (with_status step s) "id" = JS.prop step "id".
Proof. unfold with_status. rewrite prop_object. by rewrite field_insert_ne. Qed.

Lemma with_status_status step s : JS.prop (with_status step s) "status" = JStr s.
Proof. unfold with_status. rewrite prop_object. apply field_insert_eq. Qed.

Lemma update_step_active cur cs step step' :
  update_step cur cs step = Ok step' →
  JS.prop step' "id" = JS.prop step "id"
  ∧ (JS.strict_eq (JS.prop step "id") cur = true →
     JS.prop step' "status" = JStr "running").
Proof.
  unfold update_step, JS.get. destruct (JS.nullish step); [done|]. simpl.
  destruct (JS.strict_eq _ cur).
  - intros [= <-]. by rewrite with_status_id, with_status_status.
  - destruct (JS.includes cs _) as [member|]; [|done]. simpl.
    destruct (JS.truthy member); intros [= <-]; by rewrite ?with_status_id.
Qed.

Lemma map_steps_active cur cs steps : ∀ steps',
  mapM (update_step cur cs) steps = Ok steps' →
  Forall2 (λ step step',
    JS.prop step' "id" = JS.prop step "id"
    ∧ (JS.strict_eq (JS.prop step "id") cur = true →
       JS.prop step' "status" = JStr "running")) steps steps'.
Proof.
  induction steps as [|step steps IH]; intros steps'; simpl.
  - intros [= <-]. constructor.
  - destruct (update_step cur cs step) as [step'|] eqn:Hstep; [|done]. simpl.
    destruct (mapM _ steps) as [rest|]; [|done]. simpl. intros [= <-].
    constructor; [by eapply update_step_active|by apply IH].
Qed.

Lemma progress_update_active clk patch st st' :
  typed_state st = true → schema_patch patch = true →
  named st → active_running st →
  progress_update clk patch st = Ok st' →
  named st' ∧ active_running st'.
Proof.
  intros (lm & la & steps & _ & _ & Hw & _ & _)%typed_state_inv
         (m & -> & Habs & _)%schema_patch_inv Hnamed Hactive Hup.
  assert (m !! "workflow_steps" = None) as Hw0 by (apply Habs; not_listed).
  pose proof (progress_update_workflow_steps _ _ _ _ Hup Hw0) as Hsteps.
  assert (JS.field st' "current_step"
          = match m !! "current_step" with
            | Some v => v
            | None => JS.field st "current_step"
            end) as Hcur.
  { unfold JS.field at 1.
    rewrite (progress_update_elsewhere _ _ _ _ "current_step" Hup) by not_listed.
    apply field_union. }
  unfold named, active_running, active, log in *. rewrite Hw in *.
  rewrite prop_object in Hsteps. rewrite Hcur.
  destruct (JS.truthy (JS.field m "current_step")) eqn:Htruthy.
  - destruct Hsteps as (new & Hmap & ->). simpl in Hmap.
    destruct (mapM _ steps) as [steps'|] eqn:Hnew; [|done]. injection Hmap as <-.
    apply map_steps_active in Hnew.
    assert (m !! "current_step" = Some (JS.field m "current_step")) as ->.
    { unfold JS.field in Htruthy |- *.
      destruct (m !! "current_step"); [done|]. simpl in Htruthy. done. }
    clear Hactive Hw Hup Hcur. revert Hnamed.
    induction Hnew as [|step step' steps steps' [Hid Hrun] _ IH]; intros Hnamed.
    + split; constructor.
    + inversion Hnamed; subst. destruct IH as [IH1 IH2]; [done|].
      split; constructor; try done.
      * by rewrite Hid.
      * rewrite Hid, strict_eq_sym. exact Hrun.
  - rewrite Hsteps. split; [done|].
    destruct (m !! "current_step") as [v|] eqn:Hv; [|done].
    unfold JS.field in Htruthy. rewrite Hv in Htruthy. simpl in Htruthy.
    eapply Forall_impl; [exact Hnamed|]. simpl.
    intros step Hid Heq. apply strict_eq_true in Heq. congruence.
Qed.

Lemma onmessage_active clk p w c :
  ui w = Mounted c →
  typed_state (workflowState c) = true →
  named (workflowState c) → active_running (workflowState c) →
  schema_payload p = true → keeps_current_step p = true →
  ∃ c', ui (onmessage clk p w) = Mounted c'
        ∧ typed_state (workflowState c') = true
        ∧ named (workflowState c') ∧ active_running (workflowState c').
Proof.
  intros Hui Hst Hnamed Hactive Hp Hk. rewrite onmessage_classify.
  unfold schema_payload, keeps_current_step in *.
  destruct (classify p) as [patch|patch| |].
  - destruct (progress_update_schema clk patch _ Hst Hp) as (st' & Hup & Hst' & _).
    unfold setWorkflowState. rewrite Hui, Hup. simpl.
    eexists. split; [done|]. split; [done|]. simpl.
    exact (progress_update_active clk patch _ _ Hst Hp Hnamed Hactive Hup).
  - destruct (session_update_schema patch _ Hst Hp) as (Hst' & _).
    unfold setWorkflowState. rewrite Hui. simpl.
    eexists. split; [done|]. split; [done|]. simpl.
    apply bool_decide_eq_true in Hk.
    apply schema_patch_inv in Hp as (m & -> & Habs & _).
    assert (m !! "workflow_steps" = None) as Hw0 by (apply Habs; not_listed).
    unfold named, active_running, active, log, session_update in *. simpl in *.
    by rewrite !field_union, Hw0, Hk.
  - by exists c.
  - by exists c.
Qed.

Lemma deliver_active fs : ∀ w c,
  ui w = Mounted c →
  typed_state (workflowState c) = true →
  named (workflowState c) → active_running (workflowState c) →
  forallb (λ f, schema_payload f.2 && keeps_current_step f.2) fs = true →
  ∃ c', ui (deliver fs w) = Mounted c'
        ∧ typed_state (workflowState c') = true
        ∧ named (workflowState c') ∧ active_running (workflowState c').
Proof.
  induction fs as [|[clk p] fs IH]; intros w c Hui Hst Hn Ha Hfs; simpl in *.
  - by exists c.
  - apply andb_prop in Hfs as [[Hp Hk]%andb_prop Hfs].
    destruct (onmessage_active clk p w c Hui Hst Hn Ha Hp Hk)
      as (c1 & Hui1 & Hst1 & Hn1 & Ha1).
    by apply (IH _ c1).
Qed.



(** ** Frames without data, and how patches compose *)

(** X5: a frame of type "progress_update" whose [data] is missing or
    [null] takes the component down: the updater reads [data.data.message]
    (line 67) outside the handler's [try].  The same frame with the type
    "session_update" changes nothing at all. *)
Theorem progress_update_without_data_crashes clk data w c :
  ui w = Mounted c →
  JS.nullish (JS.prop data "data") = true →
  (JS.get data "type" = Ok (JStr "progress_update") →
   ui (onmessage clk (Parsed data) w) = Crashed)
  ∧ (JS.get data "type" = Ok (JStr "session_update") →
     onmessage clk (Parsed data) w = w).
Proof.
  intros Hui Hnull. split; intros Hty; unfold onmessage; rewrite Hty; simpl;
    unfold setWorkflowState; rewrite Hui.
  - unfold progress_update, JS.get. by rewrite Hnull.
  - unfold session_update.
    assert (JS.own_enumerable (JS.prop data "data") = ∅) as ->
      by (by destruct (JS.prop data "data")).
    rewrite (left_id_L ∅ (∪)). destruct w, c; simpl in *. by subst.
Qed.

Lemma progress_update_without_data_crashes_witness :
  ui run1 = Mounted (initial_component (JStr "run-1") true)
  ∧ JS.nullish (JS.prop (object [("type", JStr "progress_update")]) "data") = true
  ∧ ui (onmessage clk0 (no_data "progress_update") run1) = Crashed.
Proof.
  split; [reflexivity|]. split; [reflexivity|].
  apply (progress_update_without_data_crashes clk0
           (object [("type", JStr "progress_update")]) run1
           (initial_component (JStr "run-1") true)); reflexivity.
Defined.

(** X6: [session_update] patches compose by overwriting: the same patch
    merged twice is the patch merged once, and two patches merged one after
    the other are one patch in which the later one wins field by field. *)
Theorem session_updates_compose first second st :
  session_update first (session_update first st) = session_update first st
  ∧ session_update second (session_update first st)
    = session_update (JObj (JS.own_enumerable second ∪ JS.own_enumerable first)) st
  ∧ ∀ k, session_update second (session_update first st) !! k =
           match JS.own_enumerable second !! k with
           | Some v => Some v
           | None =>
               match JS.own_enumerable first !! k with
               | Some v => Some v
               | None => st !! k
               end
           end.
Proof.
  unfold session_update. simpl. split; [|split].
  - by rewrite (assoc_L (∪)), (idemp_L (∪)).
  - by rewrite (assoc_L (∪)).
  - intros k. destruct (JS.own_enumerable second !! k) as [v|] eqn:H2.
    + by apply lookup_union_Some_l.
    + rewrite lookup_union_r by done.
      destruct (JS.own_enumerable first !! k) as [v|] eqn:H1.
      * by apply lookup_union_Some_l.
      * by rewrite lookup_union_r.
Qed.

(** X7: a [progress_update] whose patch carries no message, no
    [current_agent], no [agent_activity] and no [current_step] (or carries
    them empty) does exactly what a [session_update] with the same patch
    does, on every store. *)
Theorem plain_progress_update_is_session_update clk patch st :
  JS.nullish patch = false →
  carries_message patch = false →
  qualifies patch = false →
  JS.truthy (JS.prop patch "current_step") = false →
  progress_update clk patch st = Ok (session_update patch st).
Proof.
  unfold carries_message, qualifies, progress_update, JS.get.
  intros -> Hm Hq Hs. simpl. by rewrite Hm, Hq, Hs.
Qed.

Lemma plain_progress_update_is_session_update_witness :
  JS.nullish status_only_patch = false
  ∧ carries_message status_only_patch = false
  ∧ qualifies status_only_patch = false
  ∧ JS.truthy (JS.prop status_only_patch "current_step") = false
  ∧ progress_update clk0 status_only_patch initial_state
    = Ok (session_update status_only_patch initial_state).
Proof.
  repeat (split; [reflexivity|]).
  apply plain_progress_update_is_session_update; reflexivity.
Defined.

(** ** The connection and the props *)

Lemma update_props f w :
  (∀ c, isVisible (f c) = isVisible c ∧ sessionId (f c) = sessionId c) →
  keeps_props w (update f w).
Proof.
  intros Hf c'. unfold update. destruct w as [[c| |] ? ? ? ? ? ?]; simpl; try done.
  intros [= <-]. exists c. by destruct (Hf c).
Qed.

Lemma setWorkflowState_props f w : keeps_props w (setWorkflowState f w).
Proof.
  intros c'. unfold setWorkflowState. destruct w as [[c| |] ? ? ? ? ? ?]; simpl; try done.
  destruct (f _); simpl; [|done]. intros [= <-]. eauto.
Qed.

Lemma keeps_props_trans w1 w2 w3 :
  keeps_props w1 w2 → keeps_props w2 w3 → keeps_props w1 w3.
Proof.
  intros H12 H23 c3 Hc3. destruct (H23 c3 Hc3) as (c2 & Hc2 & -> & ->).
  destruct (H12 c2 Hc2) as (c1 & Hc1 & -> & ->). eauto.
Qed.

Lemma keeps_props_ui w w' : ui w' = ui w → keeps_props w w'.
Proof. intros Hui c' Hc'. exists c'. by rewrite <- Hui. Qed.

Lemma onopen_props w : keeps_props w (onopen w).
Proof.
  unfold onopen, setConnectionError, setIsConnected.
  eapply keeps_props_trans;
    [|apply keeps_props_ui; unfold send; by repeat case_match].
  eapply keeps_props_trans; [|by apply update_props].
  by apply update_props.
Qed.

Lemma onmessage_props clk p w : keeps_props w (onmessage clk p w).
Proof.
  rewrite onmessage_classify.
  destruct (classify p); try apply setWorkflowState_props; by apply keeps_props_ui.
Qed.

Lemma onclose_props w : keeps_props w (onclose w).
Proof. by apply update_props. Qed.

Lemma onerror_props w : keeps_props w (onerror w).
Proof.
  unfold onerror, setConnectionError, setIsConnected.
  eapply keeps_props_trans; [|by apply update_props].
  eapply keeps_props_trans; [|by apply update_props].
  by apply keeps_props_ui.
Qed.

Lemma sockets_fade_same w w' : sockets w' = sockets w → sockets_fade w w'.
Proof. intros Hs h s' Hh. rewrite Hs in Hh. by exists s'. Qed.

Lemma sockets_fade_trans w1 w2 w3 :
  sockets_fade w1 w2 → sockets_fade w2 w3 → sockets_fade w1 w3.
Proof.
  intros H12 H23 h s3 Hs3. destruct (H23 h s3 Hs3) as (s2 & Hs2 & Hu2 & Hl2 & Hc2).
  destruct (H12 h s2 Hs2) as (s1 & Hs1 & Hu1 & Hl1 & Hc1).
  exists s1. repeat split; [done|congruence|auto|auto].
Qed.

Lemma sockets_fade_set_ready h r w :
  (∀ s, sockets w !! h = Some s →
        (live r = true → live (ready s) = true)
        ∧ (r = CONNECTING → ready s = CONNECTING)) →
  sockets_fade w (set_ready h r w).
Proof.
  intros Hr h' s'. unfold set_ready. destruct w as [u r0 cl ss sn cc er]; simpl in *.
  rewrite list_lookup_alter. case_decide; [subst h'|by eauto].
  destruct (ss !! h) as [s|] eqn:Hs; [|done]. intros [= <-]. simpl.
  exists s. destruct (Hr s eq_refl). by repeat split.
Qed.

(** What an event of a socket does to the props and to the sockets. *)
Lemma socket_event_fades e w w' :
  socket_event e = true → step e w = Some w' →
  keeps_props w w' ∧ sockets_fade w w'.
Proof.
  intros He Hstep. destruct e as [| |h|h clk p|h failed]; try discriminate;
    simpl in Hstep.
  - destruct (ready_of h w) as [[]|] eqn:Hr; try done. injection Hstep as <-.
    assert (sockets_fade w (set_ready h OPEN w)) as Hfade.
    { apply sockets_fade_set_ready. intros s Hs. unfold ready_of in Hr.
      rewrite Hs in Hr. simpl in Hr. injection Hr as ->. done. }
    split.
    + eapply keeps_props_trans; [|apply onopen_props].
      apply keeps_props_ui. by destruct w.
    + eapply sockets_fade_trans; [exact Hfade|].
      apply sockets_fade_same. by destruct (onopen_connections (set_ready h OPEN w)).
  - destruct (ready_of h w) as [[]|] eqn:Hr; try done. injection Hstep as <-. split.
    + apply onmessage_props.
    + apply sockets_fade_same. by destruct (onmessage_connections clk p w).
  - destruct (ready_of h w) as [r|] eqn:Hr; [|done].
    assert (w' = onclose (if failed then onerror (set_ready h CLOSED w)
                          else set_ready h CLOSED w)) as -> by (by destruct r; simplify_eq).
    assert (sockets_fade w (set_ready h CLOSED w)) as Hfade
      by (by apply sockets_fade_set_ready).
    assert (keeps_props w (set_ready h CLOSED w)) as Hprops
      by (apply keeps_props_ui; by destruct w).
    split.
    + eapply keeps_props_trans; [|apply onclose_props].
      destruct failed; [|done]. eapply keeps_props_trans; [done|apply onerror_props].
    + eapply sockets_fade_trans; [exact Hfade|]. apply sockets_fade_same.
      destruct (onclose_connections (if failed then onerror (set_ready h CLOSED w)
                                     else set_ready h CLOSED w)) as (-> & _).
      destruct failed; [|done].
      by destruct (onerror_connections (set_ready h CLOSED w)).
Qed.

Lemma scoped_fades w w' :
  keeps_props w w' → sockets_fade w w' → scoped w → scoped w'.
Proof.
  intros Hprops Hfade Hsc c' h s' Hui' Hs' Hl'.
  destruct (Hprops c' Hui') as (c & Hui & -> & ->).
  destruct (Hfade h s' Hs') as (s & Hs & -> & Hl & _).
  exact (Hsc c h s Hui Hs (Hl Hl')).
Qed.

Lemma quiescent_scoped w : quiescent w → scoped w.
Proof. intros Hq c h s _ Hs Hl. by rewrite (Hq h s Hs) in Hl. Qed.

Lemma run_effect_scoped accepted w c :
  ui w = Mounted c → quiescent w → scoped (run_effect accepted w).
Proof.
  intros Hui Hq. unfold run_effect. rewrite Hui.
  destruct (negb (JS.truthy (sessionId c)) || negb (isVisible c)) eqn:Hguard.
  - apply quiescent_scoped. by destruct w.
  - apply orb_false_elim in Hguard as [Hsid%negb_false_iff Hvis%negb_false_iff].
    unfold connectWebSocket.
    destruct w as [u r cl ss sn cc er]; simpl in *. subst u.
    destruct (JS.ToString (sessionId c)) as [id|] eqn:Hid, accepted; simpl.
    2-4: by apply quiescent_scoped.
    intros c' h s [= <-] Hs Hl. simpl in *.
    destruct (decide (h < length ss)) as [Hlt|Hge].
    + rewrite lookup_app_l in Hs by done. by rewrite (Hq h s Hs) in Hl.
    + rewrite lookup_app_r in Hs by lia.
      destruct (h - length ss) as [|n]; simpl in Hs; [|done].
      injection Hs as <-. simpl. eauto.
Qed.

Lemma scoped_step e w w' :
  owned w → scoped w → step e w = Some w' → scoped w'.
Proof.
  intros Ho Hsc Hstep.
  destruct (socket_event e) eqn:He.
  { destruct (socket_event_fades e w w' He Hstep). by eapply scoped_fades. }
  destruct e as [sid vis accepted| | | |]; try discriminate; simpl in Hstep.
  - destruct (ui w) as [c| |] eqn:Hui; try done.
    destruct (JS.strict_eq _ _ && bool_decide _) eqn:Hdeps; injection Hstep as <-.
    + apply andb_prop in Hdeps as [Hsid%strict_eq_true Hvis%bool_decide_eq_true].
      intros c' h s. unfold set_props, update. rewrite Hui.
      destruct w as [u r cl ss sn cc er]; simpl in *. intros [= <-] Hs Hl. simpl.
      subst sid vis. by apply (Hsc c h s).
    + pose proof (quiescent_run_cleanup w Ho) as Hq.
      eapply run_effect_scoped.
      * unfold set_props, update. rewrite ui_run_cleanup, Hui.
        by destruct (run_cleanup w).
      * eapply quiescent_same; [apply update_connections|done].
  - destruct (ui w) as [c| |] eqn:Hui; try done. injection Hstep as <-.
    intros c'. by destruct (run_cleanup w).
Qed.

Lemma reachable_scoped w : reachable w → scoped w.
Proof.
  induction 1 as [sid vis accepted|e w w' Hreach IH Hstep].
  - unfold mount. eapply run_effect_scoped; [done|]. by intros h s.
  - destruct (reachable_invariant w Hreach) as [Ho _]. by eapply scoped_step.
Qed.

(** ** What is sent *)

Lemma sent_update f w : sent (update f w) = sent w.
Proof. unfold update. by destruct w as [[c| |] ? ? ? ? ? ?]. Qed.

Lemma sent_setWorkflowState f w : sent (setWorkflowState f w) = sent w.
Proof.
  unfold setWorkflowState. destruct w as [[c| |] ? ? ? ? ? ?]; simpl; try done.
  by destruct (f _).
Qed.

Lemma sent_onmessage clk p w : sent (onmessage clk p w) = sent w.
Proof.
  rewrite onmessage_classify.
  destruct (classify p); rewrite ?sent_setWorkflowState; by destruct w.
Qed.

Lemma sent_onclose w : sent (onclose w) = sent w.
Proof. apply sent_update. Qed.

Lemma sent_onerror w : sent (onerror w) = sent w.
Proof.
  unfold onerror, setIsConnected, setConnectionError.
  rewrite !sent_update. by destruct w.
Qed.

Lemma sent_run_cleanup w : sent (run_cleanup w) = sent w.
Proof.
  unfold run_cleanup, close. destruct w as [u r cl ss sn cc er]; simpl.
  by repeat case_match.
Qed.

Lemma sent_run_effect accepted w : sent (run_effect accepted w) = sent w.
Proof.
  unfold run_effect, connectWebSocket, setConnectionError, update.
  destruct w as [[c| |] r cl ss sn cc er]; simpl; try done.
  by repeat case_match.
Qed.

Lemma sockets_age_refl w w' : sockets w' = sockets w → sockets_age w w'.
Proof. intros Hs h s Hh Hr. rewrite Hs. eauto. Qed.

Lemma sockets_age_trans w1 w2 w3 :
  sockets_age w1 w2 → sockets_age w2 w3 → sockets_age w1 w3.
Proof.
  intros H12 H23 h s Hs Hr. destruct (H12 h s Hs Hr) as (s2 & Hs2 & Hr2). eauto.
Qed.

Lemma sockets_age_set_ready h r w : r ≠ CONNECTING → sockets_age w (set_ready h r w).
Proof.
  intros Hr h' s Hs Hne. unfold set_ready. destruct w as [u r0 cl ss sn cc er]; simpl in *.
  rewrite list_lookup_alter. case_decide; [subst h'|by eauto].
  rewrite Hs. simpl. eauto.
Qed.

Lemma sockets_age_run_cleanup w : sockets_age w (run_cleanup w).
Proof.
  unfold run_cleanup. destruct (cleanup w); [|by apply sockets_age_refl].
  destruct (websocket w) as [h|]; [|by apply sockets_age_refl].
  unfold close. destruct (ready_of h w) as [[]|] eqn:Hr.
  1,2: eapply sockets_age_trans; [apply sockets_age_refl|by apply sockets_age_set_ready];
       by destruct w.
  all: apply sockets_age_refl; by destruct w.
Qed.

Lemma sockets_age_run_effect accepted w : sockets_age w (run_effect accepted w).
Proof.
  unfold run_effect, connectWebSocket, setConnectionError, update.
  destruct w as [[c| |] r cl ss sn cc er]; simpl; try (by apply sockets_age_refl).
  repeat case_match; try (by apply sockets_age_refl).
  intros h s Hs Hr. simpl in *. exists s. split; [|done]. by apply lookup_app_l_Some.
Qed.

Lemma sent_once_ages w w' :
  sent w' = sent w → sockets_age w w' → sent_once w → sent_once w'.
Proof.
  intros Hsent Hage [Hnodup Hall]. unfold sent_once. rewrite Hsent.
  split; [done|]. intros h f Hin. destruct (Hall h f Hin) as (-> & s & Hs & Hr).
  split; [done|]. by apply (Hage h s).
Qed.

Lemma sent_once_step e w w' :
  owned w → sent_once w → step e w = Some w' → sent_once w'.
Proof.
  intros Ho Hsent Hstep.
  destruct e as [sid vis accepted| |h|h clk p|h failed]; simpl in Hstep.
  - destruct (ui w) as [c| |] eqn:Hui; try done.
    destruct (JS.strict_eq _ _ && bool_decide _); injection Hstep as <-.
    + eapply sent_once_ages; [apply sent_update| |done].
      apply sockets_age_refl. by destruct (update_connections
        (λ c, Component sid vis (workflowState c) (isConnected c) (connectionError c)) w).
    + eapply sent_once_ages; [| |exact Hsent].
      * unfold set_props. by rewrite sent_run_effect, sent_update, sent_run_cleanup.
      * eapply sockets_age_trans; [apply sockets_age_run_cleanup|].
        eapply sockets_age_trans; [|apply sockets_age_run_effect].
        apply sockets_age_refl. unfold set_props.
        by destruct (update_connections
          (λ c, Component sid vis (workflowState c) (isConnected c) (connectionError c))
          (run_cleanup w)).
  - destruct (ui w) as [c| |] eqn:Hui; try done. injection Hstep as <-.
    eapply sent_once_ages; [| |exact Hsent].
    + rewrite <- (sent_run_cleanup w). by destruct (run_cleanup w).
    + eapply sockets_age_trans; [apply sockets_age_run_cleanup|].
      apply sockets_age_refl. by destruct (run_cleanup w).
  - destruct (ready_of h w) as [[]|] eqn:Hr; try done. injection Hstep as <-.
    unfold ready_of in Hr. destruct (sockets w !! h) as [s|] eqn:Hs; [|done].
    simpl in Hr. injection Hr as Hr.
    assert (websocket w = Some h) as Href by (apply (Ho h s Hs); by rewrite Hr).
    destruct Hsent as [Hnodup Hall].
    assert (h ∉ (sent w).*1) as Hfresh.
    { intros ((h' & f) & -> & Hin)%list_elem_of_fmap. simpl in *.
      destruct (Hall _ _ Hin) as (_ & s' & Hs' & Hne). congruence. }
    unfold onopen, send, setConnectionError, setIsConnected, update, ready_of, sent_once.
    destruct w as [u r cl ss sn cc er]; simpl in *. subst r.
    assert (alter (λ s0, Socket (url s0) OPEN) h ss !! h = Some (Socket (url s) OPEN))
      as Hopen by (by rewrite list_lookup_alter_eq, Hs).
    destruct u as [c| |]; simpl; rewrite Hopen; simpl.
    all: split; [rewrite fmap_app; apply NoDup_app; simpl;
                 repeat split; [done| |apply NoDup_singleton];
                 intros x Hx ->%list_elem_of_singleton; done|].
    all: intros h' f [Hin|[= -> ->]%list_elem_of_singleton]%elem_of_app;
           [|split; [done|]; eexists; split; [exact Hopen|done]].
    all: destruct (Hall h' f Hin) as (-> & s' & Hs' & Hne); split; [done|].
    all: rewrite list_lookup_alter; case_decide; [subst h'|by eauto].
    all: rewrite Hs; simpl; eauto.
  - destruct (ready_of h w) as [[]|] eqn:Hr; try done. injection Hstep as <-.
    eapply sent_once_ages; [apply sent_onmessage| |done].
    apply sockets_age_refl. by destruct (onmessage_connections clk p w).
  - destruct (ready_of h w) as [r|] eqn:Hr; [|done].
    assert (w' = onclose (if failed then onerror (set_ready h CLOSED w)
                          else set_ready h CLOSED w)) as -> by (by destruct r; simplify_eq).
    eapply sent_once_ages; [| |exact Hsent].
    + rewrite sent_onclose. destruct failed; rewrite ?sent_onerror; by destruct w.
    + eapply sockets_age_trans; [by apply (sockets_age_set_ready h CLOSED)|].
      apply sockets_age_refl.
      destruct (onclose_connections (if failed then onerror (set_ready h CLOSED w)
                                     else set_ready h CLOSED w)) as (-> & _).
      destruct failed; [|done].
      by destruct (onerror_connections (set_ready h CLOSED w)).
Qed.

(** X8: all the component ever sends is the frame [{ type: 'get_status' }]:
    in every world the component can reach, each frame sent is that frame,
    it went out on a socket that has opened, and no socket was sent more
    than one frame. *)
Theorem get_status_once_per_socket w : reachable w → sent_once w.
Proof.
  induction 1 as [sid vis accepted|e w w' Hreach IH Hstep].
  - unfold sent_once, mount. rewrite sent_run_effect. simpl.
    split; [constructor|]. intros h f Hin. by apply elem_of_nil in Hin.
  - destruct (reachable_invariant w Hreach) as [Ho _]. by eapply sent_once_step.
Qed.

Lemma reachable_opened1 : reachable opened1.
Proof. by apply (reachable_step (WsOpen 0) run1); [apply reachable_mount|]. Qed.

Lemma reachable_run2 : reachable run2.
Proof.
  by apply (reachable_step (Render (JStr "run-2") true true) opened1);
    [apply reachable_opened1|].
Qed.

Lemma reachable_opened2 : reachable opened2.
Proof. by apply (reachable_step (WsOpen 1) run2); [apply reachable_run2|]. Qed.

Lemma get_status_once_per_socket_witness :
  reachable opened2 ∧ sent opened2 = [(0, get_status); (1, get_status)]
  ∧ sent_once opened2.
Proof.
  split; [apply reachable_opened2|]. split; [reflexivity|].
  apply (get_status_once_per_socket opened2). apply reachable_opened2.
Defined.

(** ** One connection, for the run at hand *)





(** ** The status line *)

Lemma live_socket_closed_quiescent w h r :
  owned w → ready_of h w = Some r → live r = true →
  quiescent (set_ready h CLOSED w).
Proof.
  intros Ho Hr Hl h' s'. unfold ready_of in Hr.
  destruct (sockets w !! h) as [s|] eqn:Hs; [|done]. injection Hr as Hr.
  assert (websocket w = Some h) as Href by (apply (Ho h s Hs); by rewrite Hr).
  unfold set_ready. destruct w as [u r0 cl ss sn cc er]; simpl in *.
  rewrite list_lookup_alter. case_decide; [subst h'|].
  - rewrite Hs. by intros [= <-].
  - intros Hs'. destruct (live (ready s')) eqn:Hl'; [|done].
    destruct (Ho h' s' Hs' Hl') as [Href' _]. simpl in Href'. congruence.
Qed.

(** X11: when the server closes an open connection without a transport
    error, the status line reads "Connecting..." although no socket is
    connecting or open any more. *)
Theorem closed_connection_reads_connecting w h w' c' :
  reachable w → ready_of h w = Some CONNECTING →
  run [WsOpen h; WsClosed h false] w = Some w' → ui w' = Mounted c' →
  View.connection_status c' = Ok (View.Disconnected (JStr "Connecting..."))
  ∧ quiescent w'.
Proof.
  intros [Ho Hcv]%reachable_invariant Hready Hrun Hui'.
  assert (websocket w = Some h) as Href.
  { unfold ready_of in Hready. destruct (sockets w !! h) as [s|] eqn:Hs; [|done].
    apply (Ho h s Hs). simpl in Hready. by injection Hready as ->. }
  destruct (open_sends_get_status w h Href Hready) as (w1 & Hstep1 & _ & Hready1 & Hc1).
  assert (owned w1) as Ho1
    by (by destruct (invariant_step (WsOpen h) w w1 Ho Hcv Hstep1)).
  unfold run in Hrun. rewrite Hstep1 in Hrun.
  change (match step (WsClosed h false) w1 with Some x => Some x | None => None end
          = Some w') in Hrun.
  unfold step in Hrun, Hstep1. rewrite Hready1 in Hrun. rewrite Hready in Hstep1.
  injection Hrun as <-. injection Hstep1 as Hw1.
  split.
  - destruct (ui w) as [c| |] eqn:Hui.
    + destruct (Hc1 c eq_refl) as (c1 & Hui1 & _ & Herr & _).
      unfold onclose, setIsConnected, update in Hui'.
      destruct w1 as [u1 r1 cl1 ss1 sn1 cc1 er1]; simpl in *. subst u1.
      injection Hui' as <-. unfold View.connection_status. simpl. by rewrite Herr.
    + exfalso. destruct (onclose_props (set_ready h CLOSED w1) c' Hui') as (c1 & Hui1 & _).
      assert (ui w1 = Mounted c1) as Hm1 by (by destruct w1).
      subst w1.
      destruct (onopen_props (set_ready h OPEN w) c1 Hm1) as (c0 & Hui0 & _).
      destruct w; simpl in *; congruence.
    + exfalso. destruct (onclose_props (set_ready h CLOSED w1) c' Hui') as (c1 & Hui1 & _).
      assert (ui w1 = Mounted c1) as Hm1 by (by destruct w1).
      subst w1.
      destruct (onopen_props (set_ready h OPEN w) c1 Hm1) as (c0 & Hui0 & _).
      destruct w; simpl in *; congruence.
  - eapply quiescent_same; [apply onclose_connections|].
    by apply (live_socket_closed_quiescent w1 h OPEN).
Qed.

Lemma closed_connection_reads_connecting_witness :
  reachable run1 ∧ ready_of 0 run1 = Some CONNECTING
  ∧ View.connection_status (Component (JStr "run-1") true initial_state false JNull)
    = Ok (View.Disconnected (JStr "Connecting..."))
  ∧ quiescent (set_sockets [Socket "ws://localhost:8000/ws/run-1" CLOSED]
                 (World (Mounted (Component (JStr "run-1") true initial_state false JNull))
                        (Some 0) true [] [(0, get_status)] [] [])).
Proof.
  split; [apply reachable_mount|]. split; [reflexivity|].
  apply (closed_connection_reads_connecting run1 0);
    [apply reachable_mount|reflexivity|reflexivity|reflexivity].
Defined.

(** X12: the cleanup closes the socket of the earlier run but leaves its
    handlers attached.  When that socket's [close] event arrives after the
    socket of the run on display has opened, the component is marked
    disconnected, and shows the reason of the failure or "Connecting...",
    while its own socket stays open and its frames are still merged. *)
Theorem stale_close_marks_disconnected w c h s h' r failed :
  reachable w → ui w = Mounted c →
  sockets w !! h = Some s → ready s = OPEN →
  ready_of h' w = Some r → r ≠ CLOSED → h' ≠ h →
  ∃ w' c', step (WsClosed h' failed) w = Some w'
           ∧ ui w' = Mounted c'
           ∧ View.connection_status c'
             = Ok (View.Disconnected
                     (if failed then JStr "Connection failed"
                      else JS.or (connectionError c) (JStr "Connecting...")))
           ∧ websocket w' = Some h
           ∧ ready_of h w' = Some OPEN
           ∧ ∀ clk p, step (WsMessage h clk p) w' = Some (onmessage clk p w').
Proof.
  intros [Ho _]%reachable_invariant Hui Hs Hopen Hready Hr Hne.
  destruct (connection_lost w h' c r failed Hui Hready Hr)
    as (w' & c' & Hstep & Hui' & Hcon & Herr & _).
  exists w', c'. split; [done|]. split; [done|].
  assert (websocket w = Some h) as Href by (apply (Ho h s Hs); by rewrite Hopen).
  assert (sockets w' = sockets (set_ready h' CLOSED w) ∧ websocket w' = websocket w)
    as [Hss Href'].
  { simpl in Hstep. rewrite Hready in Hstep.
    assert (w' = onclose (if failed then onerror (set_ready h' CLOSED w)
                          else set_ready h' CLOSED w)) as ->
      by (by destruct r; simplify_eq).
    destruct (onclose_connections (if failed then onerror (set_ready h' CLOSED w)
                                   else set_ready h' CLOSED w)) as (-> & -> & _).
    destruct failed; [|by destruct w].
    destruct (onerror_connections (set_ready h' CLOSED w)) as (-> & -> & _).
    by destruct w. }
  assert (ready_of h w' = Some OPEN) as Hready'.
  { unfold ready_of. rewrite Hss. fold (ready_of h (set_ready h' CLOSED w)).
    rewrite ready_of_set_ready. case_decide; [done|].
    unfold ready_of. by rewrite Hs, <- Hopen. }
  split; [|split; [congruence|split; [done|]]].
  - unfold View.connection_status. rewrite Hcon, Herr. by destruct failed.
  - intros clk p. simpl. by rewrite Hready'.
Qed.

Lemma stale_close_marks_disconnected_witness :
  reachable opened2
  ∧ ready_of 0 opened2 = Some CLOSING
  ∧ ∃ w' c', step (WsClosed 0 false) opened2 = Some w'
             ∧ ui w' = Mounted c'
             ∧ View.connection_status c'
               = Ok (View.Disconnected (JStr "Connecting..."))
             ∧ websocket w' = Some 1
             ∧ ready_of 1 w' = Some OPEN
             ∧ ∀ clk p, step (WsMessage 1 clk p) w' = Some (onmessage clk p w').
Proof.
  split; [apply reachable_opened2|]. split; [reflexivity|].
  apply (stale_close_marks_disconnected opened2
           (Component (JStr "run-2") true initial_state true JNull)
           1 (Socket "ws://localhost:8000/ws/run-2" OPEN) 0 CLOSING false);
    [apply reachable_opened2|reflexivity|reflexivity|reflexivity|reflexivity
    |discriminate|lia].
Defined.

(** ** Strings and their pieces *)

Lemma append_nil_l s : "" +:+ s = s.
Proof. done. Qed.

Lemma append_cons c s t : String c s +:+ t = String c (s +:+ t).
Proof. done. Qed.

Lemma append_nil_r s : s +:+ "" = s.
Proof. induction s as [|c s IH]; [done|]. rewrite append_cons. congruence. Qed.

Lemma append_cons_r piece c s : (piece +:+ String c "") +:+ s = piece +:+ String c s.
Proof. induction piece as [|c' piece IH]; [done|]. rewrite !append_cons. congruence. Qed.

Lemma index_cons sep c s :
  String.index 0 sep (String c s) =
    if String.prefix sep (String c s) then Some 0
    else S <$> String.index 0 sep s.
Proof. simpl. destruct sep; [done|]. by destruct (String.index 0 _ s). Qed.

Lemma split_from_cons sep piece c s :
  View.split_from sep 0 piece (String c s) =
    if String.prefix sep (String c s)
    then piece :: View.split_from sep (String.length sep - 1) "" s
    else View.split_from sep 0 (piece +:+ String c "") s.
Proof. done. Qed.

Lemma split_from_absent sep s : ∀ piece,
  String.index 0 sep s = None → View.split_from sep 0 piece s = [piece +:+ s].
Proof.
  induction s as [|c s IH]; intros piece Hnone.
  - simpl. by rewrite append_nil_r.
  - rewrite index_cons in Hnone. rewrite split_from_cons.
    destruct (String.prefix sep (String c s)); [done|].
    destruct (String.index 0 sep s); [done|].
    by rewrite IH, append_cons_r.
Qed.

Lemma split_from_skip sep t : ∀ piece s,
  View.split_from sep (String.length t) piece (t +:+ s) = View.split_from sep 0 piece s.
Proof.
  induction t as [|c t IH]; intros piece s; [done|].
  rewrite append_cons. simpl. apply IH.
Qed.

Lemma prefix_cons c a c' s :
  String.prefix (String c a) (String c' s) =
    if Ascii.ascii_dec c c' then String.prefix a s else false.
Proof. done. Qed.

Lemma prefix_append sep s : String.prefix sep (sep +:+ s) = true.
Proof.
  induction sep as [|c sep IH]; [by destruct s|].
  rewrite append_cons, prefix_cons. by destruct (Ascii.ascii_dec c c).
Qed.

Lemma split_from_first c0 sep pre : ∀ piece post,
  String.index 0 (String c0 sep) (pre +:+ String c0 sep +:+ post)
    = Some (String.length pre) →
  View.split_from (String c0 sep) 0 piece (pre +:+ String c0 sep +:+ post)
    = (piece +:+ pre) :: View.split_from (String c0 sep) 0 "" post.
Proof.
  induction pre as [|c pre IH]; intros piece post Hfirst.
  - change ("" +:+ String c0 sep +:+ post) with (String c0 (sep +:+ post)).
    rewrite split_from_cons.
    change (String c0 (sep +:+ post)) with (String c0 sep +:+ post).
    rewrite prefix_append, append_nil_r. simpl. rewrite Nat.sub_0_r.
    by rewrite split_from_skip.
  - change (String c pre +:+ String c0 sep +:+ post)
      with (String c (pre +:+ String c0 sep +:+ post)) in *.
    rewrite index_cons in Hfirst. rewrite split_from_cons.
    destruct (String.prefix _ _); [done|].
    destruct (String.index 0 _ (pre +:+ _)) as [n|] eqn:Hn; [|done].
    injection Hfirst as ->. by rewrite IH, append_cons_r.
Qed.

Lemma prefix_shorter a b : ∀ s,
  String.prefix (a +:+ b) s = true → String.prefix a s = true.
Proof.
  induction a as [|c a IH]; intros s; [by destruct s|].
  rewrite append_cons.
  destruct s as [|c' s]; [done|]. rewrite !prefix_cons.
  destruct (Ascii.ascii_dec c c'); [apply IH|done].
Qed.

Lemma substring_shorter a b s :
  JS.is_substring (a +:+ b) s = true → JS.is_substring a s = true.
Proof.
  unfold JS.is_substring. induction s as [|c s IH].
  - destruct a; [done|]. by rewrite append_cons.
  - rewrite !index_cons.
    destruct (String.prefix (a +:+ b) (String c s)) eqn:Hp.
    + by rewrite (prefix_shorter a b _ Hp).
    + destruct (String.prefix a (String c s)); [done|].
      destruct (String.index 0 (a +:+ b) s); [|done].
      intros _. specialize (IH eq_refl). by destruct (String.index 0 a s).
Qed.

(** The index keys of an array are numerals. *)
Lemma pretty_N_char_digit (d : N) :
  (48 ≤ Ascii.nat_of_ascii (pretty_N_char d) ≤ 57)%nat.
Proof. unfold pretty_N_char. repeat case_match; vm_compute; lia. Qed.

Lemma pretty_N_go_head x : ∀ s,
  (∃ d t, s = String (pretty_N_char d) t) →
  ∃ d t, pretty_N_go x s = String (pretty_N_char d) t.
Proof.
  induction (N.lt_wf_0 x) as [x _ IH]; intros s Hs.
  destruct (decide (x = 0)%N) as [->|Hx]; [by rewrite pretty_N_go_0|].
  rewrite pretty_N_go_step by lia. apply IH; [apply N.div_lt; lia|eauto].
Qed.

Lemma pretty_nat_head (i : nat) : ∃ d t, pretty i = String (pretty_N_char d) t.
Proof.
  unfold pretty, pretty_nat, pretty, pretty_N.
  destruct (decide (N.of_nat i = 0)%N) as [|Hx]; [by exists 0%N, ""|].
  rewrite pretty_N_go_step by lia. apply pretty_N_go_head. eauto.
Qed.

Lemma index_props_word l c t :
  ¬ (48 ≤ Ascii.nat_of_ascii c ≤ 57)%nat → JS.index_props l !! String c t = None.
Proof.
  intros Hc. unfold JS.index_props. apply not_elem_of_list_to_map_1.
  intros ((k & v) & Hk & (i & x & [= -> ->] & _)%elem_of_lookup_imap)%list_elem_of_fmap.
  simpl in Hk. destruct (pretty_nat_head i) as (d & t' & Hd).
  rewrite Hd in Hk. injection Hk as -> _. apply Hc, pretty_N_char_digit.
Qed.

Ltac word := vm_compute; lia.

(** ** The agents tab *)

Lemma call_includes_text s needle :
  View.call_includes (JStr s) (JStr needle) = Ok (JBool (JS.is_substring needle s)).
Proof. done. Qed.

(** X13: an activity whose action text contains "classified as" without
    the colon and blank that line 192 splits at is shown with the label
    "Case classified: undefined".  The record synthesised from a message
    such as "Case classified as CRITICAL" is one. *)
Theorem classified_without_colon_reads_undefined activity s :
  JS.get activity "action" = Ok (JStr s) →
  JS.is_substring "classified as" s = true →
  JS.is_substring "classified as: " s = false →
  View.formatAgentActivity activity = Ok (JStr "🏥 Case classified: undefined").
Proof.
  intros Haction Hin Hout. unfold View.formatAgentActivity. rewrite Haction.
  simpl. rewrite Hin. simpl. unfold View.split.
  rewrite split_from_absent; [done|].
  unfold JS.is_substring in Hout. by destruct (String.index 0 _ s).
Qed.

Lemma classified_without_colon_reads_undefined_witness :
  JS.get critical_activity "action" = Ok (JStr "Case classified as CRITICAL")
  ∧ View.formatAgentActivity critical_activity
    = Ok (JStr "🏥 Case classified: undefined").
Proof.
  split; [reflexivity|].
  apply (classified_without_colon_reads_undefined critical_activity
           "Case classified as CRITICAL"); reflexivity.
Defined.

(** X14: when the action text contains "classified as: ", the label shows
    what follows its first occurrence, up to the next occurrence if there
    is one (here: there is none). *)
Theorem classified_label_is_text_after_colon activity pre post :
  JS.get activity "action" = Ok (JStr (pre +:+ "classified as: " +:+ post)) →
  String.index 0 "classified as: " (pre +:+ "classified as: " +:+ post)
    = Some (String.length pre) →
  String.index 0 "classified as: " post = None →
  View.formatAgentActivity activity = Ok (JStr ("🏥 Case classified: " +:+ post)).
Proof.
  intros Haction Hfirst Hlast. unfold View.formatAgentActivity. rewrite Haction.
  assert (JS.is_substring "classified as" (pre +:+ "classified as: " +:+ post) = true)
    as Hin.
  { apply (substring_shorter "classified as" ": ").
    change ("classified as" +:+ ": ") with "classified as: ".
    unfold JS.is_substring. by rewrite Hfirst. }
  simpl. rewrite Hin. simpl. unfold View.split.
  rewrite (split_from_first _ _ pre "" post Hfirst).
  by rewrite (split_from_absent _ post "" Hlast).
Qed.

Lemma classified_label_is_text_after_colon_witness :
  JS.get graded_activity "action" = Ok (JStr ("Case " +:+ "classified as: " +:+ "HIGH"))
  ∧ View.formatAgentActivity graded_activity
    = Ok (JStr ("🏥 Case classified: " +:+ "HIGH")).
Proof.
  split; [reflexivity|].
  apply (classified_label_is_text_after_colon graded_activity "Case " "HIGH");
    reflexivity.
Defined.

Lemma mapM_throw {A B} (f : A → result B) l x : f x = Throw → mapM f (l ++ [x]) = Throw.
Proof.
  intros Hx. induction l as [|y l IH]; simpl.
  - by rewrite Hx.
  - destruct (f y); simpl; [|done]. by rewrite IH.
Qed.

Lemma action_carrier fragment :
  JS.truthy (JS.prop fragment "action") = true → ∃ m, fragment = JObj m.
Proof.
  destruct fragment as [| | | |s|l|m]; try done; [| |by eexists].
  all: unfold JS.prop; simpl; unfold JS.field.
  all: rewrite index_props_word by word; done.
Qed.

Lemma formatAgentActivity_throws activity action :
  JS.get activity "action" = Ok action →
  JS.truthy action = true → text_or_list action = false →
  View.formatAgentActivity activity = Throw.
Proof.
  intros Haction Htruthy Hkind. unfold View.formatAgentActivity. rewrite Haction.
  by destruct action.
Qed.

Lemma render_activity_throws activity :
  View.formatAgentActivity activity = Throw → View.render_activity activity = Throw.
Proof.
  intros Hformat. unfold View.render_activity. rewrite Hformat.
  destruct (JS.get activity "id"); simpl; [|done].
  destruct (JS.get activity "status") as [status|]; simpl; [|done].
  destruct (JS.ToString status); simpl; [|done].
  destruct (JS.get activity "agent") as [agent|]; simpl; [|done].
  destruct (View.getAgentIcon agent); simpl; [|done].
  by destruct (JS.get activity "timestamp").
Qed.

(** X15: a frame of the schema whose activity fragment carries an action
    that is neither a string nor an array (a number, [true], an object) is
    merged into the store, and from then on the agents tab cannot be
    rendered: [formatAgentActivity] calls [includes] on the action
    (line 191) and throws. *)
Theorem non_text_action_breaks_agents_tab clk patch st st' :
  typed_state st = true → schema_patch patch = true →
  progress_update clk patch st = Ok st' →
  JS.truthy (JS.prop (JS.prop patch "agent_activity") "action") = true →
  text_or_list (JS.prop (JS.prop patch "agent_activity") "action") = false →
  View.render_activities st' = Throw.
Proof.
  intros Hst Hp Hup Htruthy Hkind.
  destruct (progress_update_schema clk patch st Hst Hp) as (st'' & Hup' & Hst' & _ & Hlog).
  rewrite Hup in Hup'. injection Hup' as <-.
  destruct (action_carrier _ Htruthy) as (fragment & Hfragment).
  assert (qualifies patch = true) as Hq.
  { unfold qualifies, JS.or. rewrite Hfragment.
    by destruct (JS.truthy (JS.prop patch "current_agent")) eqn:Hagent. }
  unfold new_activities in Hlog. rewrite Hq in Hlog.
  apply typed_state_inv in Hst' as (_ & la' & _ & _ & Ha' & _).
  unfold View.render_activities. unfold log in Hlog. rewrite Ha' in *.
  rewrite Hlog. simpl. rewrite length_app. simpl.
  rewrite bool_decide_eq_false_2 by lia.
  apply mapM_throw, render_activity_throws.
  eapply formatAgentActivity_throws; [|exact Htruthy|exact Hkind].
  unfold activity_record, JS.get. simpl. rewrite prop_object.
  rewrite field_insert_ne by done. rewrite field_insert_ne by done.
  rewrite field_insert_ne by done. rewrite field_insert_eq.
  rewrite Hfragment in *. unfold JS.get_opt. simpl. unfold JS.or at 1.
  rewrite prop_object in Htruthy. by rewrite prop_object, Htruthy.
Qed.

Lemma non_text_action_breaks_agents_tab_witness :
  typed_state initial_state = true ∧ schema_patch counted_patch = true
  ∧ ∃ st', progress_update clk0 counted_patch initial_state = Ok st'
           ∧ View.render_activities st' = Throw.
Proof.
  split; [reflexivity|]. split; [reflexivity|].
  destruct (progress_update clk0 counted_patch initial_state) as [st'|] eqn:Hup;
    [|vm_compute in Hup; discriminate Hup].
  exists st'. split; [reflexivity|].
  apply (non_text_action_breaks_agents_tab clk0 counted_patch initial_state st');
    [reflexivity|reflexivity|exact Hup|reflexivity|reflexivity].
Defined.

(** ** The messages tab *)

Lemma get_stamped_message clk message k :
  JS.get (stamped_message clk message) k = Ok (JS.prop (stamped_message clk message) k).
Proof. done. Qed.



(** X17: a message that arrives as a plain string is logged as the object
    of its characters, so the messages tab shows an entry with a time and
    neither agent nor content: the branch of line 382 for a message that
    is not an object is never taken for it. *)
Theorem text_message_shows_no_content now clk patch s :
  JS.prop patch "message" = JStr s → s ≠ "" →
  ∃ entry, new_messages clk patch = [entry]
           ∧ View.render_message now entry
             = Ok (View.MessageView (JS.or (JStr (message_time clk)) (JStr now))
                                    (View.Bare JUndef) JUndef).
Proof.
  intros Hmessage Hs. unfold new_messages, carries_message. rewrite Hmessage.
  assert (JS.truthy (JStr s) = true) as ->
    by (simpl; by destruct (String.eqb_spec s "")).
  exists (stamped_message clk (JStr s)). split; [done|].
  unfold View.render_message. rewrite !get_stamped_message, !stamped_message_prop.
  simpl. unfold JS.field. by rewrite !index_props_word by word.
Qed.

Lemma text_message_shows_no_content_witness :
  JS.prop text_patch "message" = JStr "Triage started"
  ∧ ∃ entry, new_messages clk0 text_patch = [entry]
             ∧ View.render_message "10:07:00" entry
               = Ok (View.MessageView (JStr "10:00:00") (View.Bare JUndef) JUndef).
Proof.
  split; [reflexivity|].
  apply (text_message_shows_no_content "10:07:00" clk0 text_patch "Triage started");
    [reflexivity|discriminate].
Defined.

(** ** The texts of the catalog *)

Lemma prop_step_identity step k :
  k ≠ "status" → k ≠ "length" → JS.prop step k = JS.field (step_identity step) k.
Proof.
  intros Hstatus Hlength. unfold JS.prop, step_identity, JS.field.
  destruct (String.eqb_spec k "length"); [done|]. by rewrite lookup_delete_ne.
Qed.

Lemma deliver_step_identity fs w c :
  ui w = Mounted c →
  typed_state (workflowState c) = true →
  forallb (λ f, schema_payload f.2) fs = true →
  ∃ c', ui (deliver fs w) = Mounted c'
        ∧ typed_state (workflowState c') = true
        ∧ step_identity <$> log "workflow_steps" (workflowState c')
          = step_identity <$> log "workflow_steps" (workflowState c).
Proof.
  intros Hui Hst Hfs.
  destruct (deliver_steps fs w c Hui Hst Hfs) as (c' & Hui' & Hst' & Hkept).
  exists c'. split; [done|]. split; [done|].
  apply list_eq_Forall2, Forall2_fmap. apply Forall2_flip.
  eapply Forall2_impl; [exact Hkept|]. by intros step step' [Hid _].
Qed.





(** ** An agent that is only announced *)

Lemma get_activity_record clk agent fragment message k :
  JS.get (activity_record clk agent fragment message) k
  = Ok (JS.prop (activity_record clk agent fragment message) k).
Proof. done. Qed.

Lemma activity_record_props clk agent fragment message :
  let record := activity_record clk agent fragment message in
  JS.prop record "id" = JNum (activity_id clk)
  ∧ JS.prop record "timestamp" = JStr (activity_time clk)
  ∧ JS.prop record "agent" = JS.or agent (JS.get_opt fragment "agent")
  ∧ JS.prop record "action"
    = JS.or (JS.get_opt fragment "action")
        (JS.or (JS.get_opt message "content") (JStr "Processing..."))
  ∧ JS.prop record "status" = JS.or (JS.get_opt fragment "status") (JStr "running")
  ∧ JS.prop record "details" = JS.or (JS.get_opt fragment "details") JNull.
Proof.
  simpl. unfold activity_record. rewrite !prop_object.
  repeat split; by repeat (rewrite field_insert_eq || rewrite field_insert_ne by done).
Qed.



(** ** Patches that carry a log *)

Lemma onmessage_envelope clk type patch w :
  onmessage clk (envelope type patch) w =
    if String.eqb type "progress_update"
    then setWorkflowState (progress_update clk patch) w
    else if String.eqb type "session_update"
    then setWorkflowState (λ prevState, Ok (session_update patch prevState)) w
    else w.
Proof. done. Qed.

Lemma setWorkflowState_returns f w c st :
  ui w = Mounted c → f (workflowState c) = Ok st →
  ui (setWorkflowState f w)
  = Mounted (Component (sessionId c) (isVisible c) st (isConnected c) (connectionError c)).
Proof. intros Hui Hf. unfold setWorkflowState. by rewrite Hui, Hf. Qed.

Lemma setWorkflowState_throws f w c :
  ui w = Mounted c → f (workflowState c) = Throw → ui (setWorkflowState f w) = Crashed.
Proof. intros Hui Hf. unfold setWorkflowState. by rewrite Hui, Hf. Qed.


